(** * CardStack: derived state and render decisions of the stack navigator

    A shallow embedding of
    [packages/stack/src/views/Stack/CardStack.tsx]: the header-height map,
    the gesture trackers, the memoised scenes, the activity window and the
    per-screen transition configuration.

    Modelling conventions.
    - JavaScript numbers are exact rationals ([Q]); [===] on numbers is
      [Qeq_bool].
    - A JavaScript object whose identity the code observes carries an
      identity field ([route_id], [desc_id], ...); [===] on such objects
      compares identities.  Fresh objects take their identity from the
      allocation counter of the [Heap].
    - An [Animated.Value] is a location in the heap; the heap maps it to its
      current number.
    - An object used as a dictionary is a [gmap string _]; an optional
      property is an [option]. *)

From Stdlib Require Import QArith Qminmax Lqa.
From stdpp Require Import gmap strings list fin_maps.

Local Open Scope string_scope.

(* ================================================================= *)
(** ** Numbers *)

Definition Qlt_bool (x y : Q) : bool := negb (Qle_bool y x).

(** [Math.max] *)
Definition Math_max (x y : Q) : Q := Qmax x y.

(* ================================================================= *)
(** ** Animated values (react-native)

    [Animated.Value] and [interpolate] belong to react-native, not to this
    repository.  They are modelled by their documented meaning: an
    interpolation node is a piecewise-linear function of its parent, with
    the segment chosen by [findRange] and the behaviour outside the input
    range chosen by [extrapolate] (default ['extend']). *)

Inductive Extrapolate := extend | clamp | identity.

Global Instance Extrapolate_eq_dec : EqDecision Extrapolate.
Proof. solve_decision. Defined.

Record InterpolationConfig := {
  inputRange : list Q;
  outputRange : list Q;
  extrapolate : Extrapolate;
}.

Inductive Animated :=
  | AnimatedValue (loc : nat)
  | AnimatedInterpolation (parent : Animated) (config : InterpolationConfig).

Definition interpolate_segment
    (input inputMin inputMax outputMin outputMax : Q)
    (extrapolateLeft extrapolateRight : Extrapolate) : Q :=
  if Qlt_bool input inputMin && bool_decide (extrapolateLeft = identity)
  then input
  else
    let result :=
      if Qlt_bool input inputMin && bool_decide (extrapolateLeft = clamp)
      then inputMin else input in
    if Qlt_bool inputMax result && bool_decide (extrapolateRight = identity)
    then result
    else
      let result :=
        if Qlt_bool inputMax result && bool_decide (extrapolateRight = clamp)
        then inputMax else result in
      if Qeq_bool outputMin outputMax then outputMin
      else if Qeq_bool inputMin inputMax then
        (if Qle_bool input inputMin then outputMin else outputMax)
      else
        ((result - inputMin) / (inputMax - inputMin)
           * (outputMax - outputMin) + outputMin)%Q.

(** [for (i = 1; i < inputRange.length - 1; ++i) if (inputRange[i] >= input) break;
     return i - 1] *)
Fixpoint findRange_loop (input : Q) (inputRange : list Q) (i fuel : nat) : nat :=
  match fuel with
  | O => i
  | S fuel' =>
      if bool_decide (i < length inputRange - 1) then
        match inputRange !! i with
        | Some x =>
            if Qle_bool input x then i
            else findRange_loop input inputRange (S i) fuel'
        | None => i
        end
      else i
  end.

Definition findRange (input : Q) (inputRange : list Q) : nat :=
  findRange_loop input inputRange 1 (length inputRange) - 1.

Definition interpolate (config : InterpolationConfig) (input : Q) : option Q :=
  let range := findRange input (inputRange config) in
  inputMin ← inputRange config !! range;
  inputMax ← inputRange config !! S range;
  outputMin ← outputRange config !! range;
  outputMax ← outputRange config !! S range;
  Some (interpolate_segment input inputMin inputMax outputMin outputMax
          (extrapolate config) (extrapolate config)).

(** The heap: an allocation counter for object identities and the current
    number of every [Animated.Value]. *)
Record Heap := {
  next_id : nat;
  values : gmap nat Q;
}.

Definition new_object (h : Heap) : nat * Heap :=
  (next_id h, {| next_id := S (next_id h); values := values h |}).

Definition new_Animated_Value (v : Q) (h : Heap) : nat * Heap :=
  (next_id h,
   {| next_id := S (next_id h); values := <[next_id h := v]> (values h) |}).

Fixpoint getValue (vals : gmap nat Q) (a : Animated) : option Q :=
  match a with
  | AnimatedValue loc => vals !! loc
  | AnimatedInterpolation parent config =>
      getValue vals parent ≫= interpolate config
  end.

(* ================================================================= *)
(** ** Types of the stack navigator *)

Inductive GestureDirection :=
  | horizontal | horizontal_inverted | vertical | vertical_inverted.

Inductive StackCardMode := card | modal.

Inductive StackHeaderMode := float | screen | none.

Record Layout := { width : Q; height : Q }.

(** The layout object held in the state: its identity is a scene dependency. *)
Record LayoutObject := { layout_id : nat; layout_value :> Layout }.

Record EdgeInsets := { top : Q; right : Q; bottom : Q; left : Q }.

(** [options.safeAreaInsets]: every side is optional. *)
Record SafeAreaInsetsOption := {
  top_option : option Q;
  right_option : option Q;
  bottom_option : option Q;
  left_option : option Q;
}.

(** A style property may hold a number or something else (a string such as
    ['50%']). *)
Inductive StyleValue := StyleNumber (n : Q) | StyleString (s : string).

Record HeaderStyle := { style_height : option StyleValue }.

(** Transition specs and style interpolators are objects and functions the
    file only passes along; they are identified by name. *)
Record TransitionSpec := Spec { spec_name : string }.
Record CardStyleInterpolator := CardInterpolator { card_interpolator_name : string }.
Record HeaderStyleInterpolator := HeaderInterpolator { header_interpolator_name : string }.

Definition forNoAnimationCard : CardStyleInterpolator :=
  CardInterpolator "forNoAnimation".
Definition forNoAnimationHeader : HeaderStyleInterpolator :=
  HeaderInterpolator "forNoAnimation".

Record StackNavigationOptions := {
  headerStyle : option HeaderStyle;
  safeAreaInsets : option SafeAreaInsetsOption;
  headerStatusBarHeight : option Q;
  animationEnabled : option bool;
  gestureDirection : option GestureDirection;
  transitionSpec : option TransitionSpec;
  cardStyleInterpolator : option CardStyleInterpolator;
  headerStyleInterpolator : option HeaderStyleInterpolator;
}.

(** The object literal [{}] used where options are missing. *)
Definition noOptions : StackNavigationOptions :=
  {| headerStyle := None; safeAreaInsets := None;
     headerStatusBarHeight := None; animationEnabled := None;
     gestureDirection := None; transitionSpec := None;
     cardStyleInterpolator := None; headerStyleInterpolator := None |}.

Record StackDescriptor := { desc_id : nat; options : StackNavigationOptions }.

(** [Object.freeze({ options: {} })], one object for the whole module. *)
Definition FALLBACK_DESCRIPTOR : StackDescriptor :=
  {| desc_id := 0; options := noOptions |}.

Record StackDescriptorMap := {
  descs_id : nat;
  descs : gmap string StackDescriptor;
}.

Record Route := { route_id : nat; key : string; name : string }.

Record RouteArray := { routes_id : nat; items : list Route }.

Record TransitionPreset := {
  preset_gestureDirection : GestureDirection;
  preset_transitionSpec : TransitionSpec;
  preset_cardStyleInterpolator : CardStyleInterpolator;
  preset_headerStyleInterpolator : HeaderStyleInterpolator;
}.

Record Progress := {
  current : Animated;
  next : option Animated;
  previous : option Animated;
}.

(** The eight dependencies of a scene, held by reference: the identities of
    route, layout, descriptor, next and previous descriptor, and the own,
    next and previous gesture. *)
Record Memo := {
  memo_route : nat;
  memo_layout : nat;
  memo_descriptor : nat;
  memo_nextDescriptor : option nat;
  memo_previousDescriptor : option nat;
  memo_currentGesture : nat;
  memo_nextGesture : option nat;
  memo_previousGesture : option nat;
}.

Global Instance Memo_eq_dec : EqDecision Memo.
Proof. solve_decision. Defined.

Record Scene := {
  scene_id : nat;
  route : Route;
  descriptor : StackDescriptor;
  progress : Progress;
  __memo : Memo;
}.

Record Props := {
  mode : StackCardMode;
  insets : EdgeInsets;
  descriptors : StackDescriptorMap;
  routes : RouteArray;
  openingRouteKeys : list string;
  headerMode : StackHeaderMode;
  screensEnabled : option bool;
  activeLimit : option nat;
}.

Record State := {
  state_routes : RouteArray;
  state_descriptors : StackDescriptorMap;
  scenes : list Scene;
  gestures : gmap string nat;
  layout : LayoutObject;
  headerHeights : gmap string Q;
}.

Definition EPSILON : Q := 0.01.

(* ================================================================= *)
(** ** Helpers of the embedding *)

(** [a || b] on possibly-undefined objects (objects are truthy). *)
Definition or_else {A} (a b : option A) : option A :=
  match a with Some x => Some x | None => b end.

(** [r?.key] used as a property name: [undefined] becomes the property
    ["undefined"]. *)
Definition key_of (r : option Route) : string :=
  match r with Some r => key r | None => "undefined" end.

(** [descriptor?.options || {}] *)
Definition options_of (descriptor : option StackDescriptor) : StackNavigationOptions :=
  match descriptor with Some d => options d | None => noOptions end.

(** [{ ...insets, ...options.safeAreaInsets }] *)
Definition spread_insets (insets : EdgeInsets) (o : option SafeAreaInsetsOption) : EdgeInsets :=
  match o with
  | None => insets
  | Some o =>
      {| top := default (top insets) (top_option o);
         right := default (right insets) (right_option o);
         bottom := default (bottom insets) (bottom_option o);
         left := default (left insets) (left_option o) |}
  end.

(** Modelled from the spec: [utils/getDistanceForDirection] is not among the
    sources.  The spec (4.1 and the first testable property) gives it as the
    full travel length of the axis of the direction: the layout's height for
    the vertical directions and its width for the horizontal ones, negated
    for the inverted directions. *)
Definition getDistanceForDirection (layout : Layout) (gestureDirection : GestureDirection) : Q :=
  match gestureDirection with
  | vertical => height layout
  | vertical_inverted => (- height layout)%Q
  | horizontal => width layout
  | horizontal_inverted => (- width layout)%Q
  end.

(** The layout [getProgressFromGesture] passes on: "make sure that we have a
    non-zero distance". *)
Definition nonZeroLayout (layout : Layout) : Layout :=
  {| width := Math_max 1 (width layout);
     height := Math_max 1 (height layout) |}.

Section CardStack.

(** The transition presets ([TransitionConfigs/TransitionPresets]) and the
    platform's default header height ([Header/HeaderSegment]) are imported
    by the file; they are parameters here. *)
Variable DefaultTransition ModalTransition : TransitionPreset.
Variable getDefaultHeaderHeight : Layout → Q → Q.

Definition getHeaderHeights_step
    (insets : EdgeInsets) (descriptors : StackDescriptorMap) (layout : Layout)
    (previous : gmap string Q)
    (acc : gmap string Q) (curr : Route) : gmap string Q :=
  let options := options_of (descs descriptors !! key curr) in
  let style := default {| style_height := None |} (headerStyle options) in
  let height :=
    match style_height style with
    | Some (StyleNumber n) => Some n
    | _ => previous !! key curr
    end in
  let safeAreaInsets := spread_insets insets (safeAreaInsets options) in
  let headerStatusBarHeight :=
    default (top safeAreaInsets) (headerStatusBarHeight options) in
  <[key curr :=
      match height with
      | Some height => height
      | None => getDefaultHeaderHeight layout headerStatusBarHeight
      end]> acc.

Definition getHeaderHeights
    (routes : list Route) (insets : EdgeInsets) (descriptors : StackDescriptorMap)
    (layout : Layout) (previous : gmap string Q) : gmap string Q :=
  fold_left (getHeaderHeights_step insets descriptors layout previous) routes ∅.

Definition getDistanceFromOptions
    (mode : StackCardMode) (layout : Layout)
    (descriptor : option StackDescriptor) : Q :=
  let gestureDirection :=
    default
      (match mode with
       | modal => preset_gestureDirection ModalTransition
       | card => preset_gestureDirection DefaultTransition
       end)
      (gestureDirection (options_of descriptor)) in
  getDistanceForDirection layout gestureDirection.

Definition getProgressFromGesture
    (mode : StackCardMode) (gesture : Animated) (layout : Layout)
    (descriptor : option StackDescriptor) : Animated :=
  let distance :=
    getDistanceFromOptions mode (nonZeroLayout layout) descriptor in
  if Qlt_bool 0 distance then
    AnimatedInterpolation gesture
      {| inputRange := [0%Q; distance]; outputRange := [1%Q; 0%Q];
         extrapolate := extend |}
  else
    AnimatedInterpolation gesture
      {| inputRange := [distance; 0%Q]; outputRange := [0%Q; 1%Q];
         extrapolate := extend |}.

(** *** getDerivedStateFromProps *)

(** The reducer that builds [gestures]. *)
Definition gestures_step (props : Props) (state : State)
    (acc : gmap string nat * Heap) (curr : Route) : gmap string nat * Heap :=
  let descriptor := descs (descriptors props) !! key curr in
  let animationEnabled := animationEnabled (options_of descriptor) in
  match gestures state !! key curr with
  | Some gesture => (<[key curr := gesture]> acc.1, acc.2)
  | None =>
      let '(gesture, h) :=
        new_Animated_Value
          (if bool_decide (key curr ∈ openingRouteKeys props)
              && negb (bool_decide (animationEnabled = Some false))
           then getDistanceFromOptions (mode props) (layout state) descriptor
           else 0%Q)
          acc.2 in
      (<[key curr := gesture]> acc.1, h)
  end.

Definition previousRoute_of (self : list Route) (index : nat) : option Route :=
  match index with O => None | S i => self !! i end.

Definition nextRoute_of (self : list Route) (index : nat) : option Route :=
  self !! S index.

Definition gesture_of (gestures : gmap string nat) (r : option Route) : option nat :=
  match r with Some r => gestures !! key r | None => None end.

(** [props.descriptors[k] || state.descriptors[k]] *)
Definition resolvedDescriptor (props : Props) (state : State) (k : string)
    : option StackDescriptor :=
  or_else (descs (descriptors props) !! k) (descs (state_descriptors state) !! k).

(** The descriptors a scene depends on. *)
Definition scene_descriptor (props : Props) (state : State)
    (index : nat) (route : Route) : StackDescriptor :=
  let oldScene := scenes state !! index in
  default
    (match oldScene with
     | Some oldScene => descriptor oldScene
     | None => FALLBACK_DESCRIPTOR
     end)
    (resolvedDescriptor props state (key route)).

Definition scene_nextDescriptor (props : Props) (state : State)
    (self : list Route) (index : nat) : option StackDescriptor :=
  let nextRoute := nextRoute_of self index in
  resolvedDescriptor props state (key_of nextRoute).

Definition scene_previousDescriptor (props : Props) (state : State)
    (self : list Route) (index : nat) : option StackDescriptor :=
  let previousRoute := previousRoute_of self index in
  resolvedDescriptor props state (key_of previousRoute).

(** The [__memo] array of the scene at [index]. *)
Definition scene_memo (props : Props) (state : State) (gestures : gmap string nat)
    (self : list Route) (index : nat) (route : Route) (currentGesture : nat) : Memo :=
  {| memo_route := route_id route;
     memo_layout := layout_id (layout state);
     memo_descriptor := desc_id (scene_descriptor props state index route);
     memo_nextDescriptor := desc_id <$> scene_nextDescriptor props state self index;
     memo_previousDescriptor :=
       desc_id <$> scene_previousDescriptor props state self index;
     memo_currentGesture := currentGesture;
     memo_nextGesture := gesture_of gestures (nextRoute_of self index);
     memo_previousGesture := gesture_of gestures (previousRoute_of self index) |}.

(** The callback of [props.routes.map]: build the scene, return the old one
    when its memo matches.  [None] is the [TypeError] of calling
    [interpolate] on a missing gesture. *)
Definition scenes_callback (props : Props) (state : State) (gestures : gmap string nat)
    (self : list Route) (index : nat) (route : Route) (h : Heap)
    : option (Scene * Heap) :=
  let oldScene := scenes state !! index in
  currentGesture ← gestures !! key route;
  let previousGesture := gesture_of gestures (previousRoute_of self index) in
  let nextGesture := gesture_of gestures (nextRoute_of self index) in
  let descriptor := scene_descriptor props state index route in
  let nextDescriptor := scene_nextDescriptor props state self index in
  let previousDescriptor := scene_previousDescriptor props state self index in
  let '(id, h') := new_object h in
  let scene :=
    {| scene_id := id;
       route := route;
       descriptor := descriptor;
       progress :=
         {| current :=
              getProgressFromGesture (mode props) (AnimatedValue currentGesture)
                (layout state) (Some descriptor);
            next :=
              (λ g, getProgressFromGesture (mode props) (AnimatedValue g)
                      (layout state) nextDescriptor) <$> nextGesture;
            previous :=
              (λ g, getProgressFromGesture (mode props) (AnimatedValue g)
                      (layout state) previousDescriptor) <$> previousGesture |};
       __memo :=
         scene_memo props state gestures self index route currentGesture |} in
  match oldScene with
  | Some oldScene =>
      if bool_decide (__memo scene = __memo oldScene) then Some (oldScene, h')
      else Some (scene, h')
  | None => Some (scene, h')
  end.

Fixpoint map_with_index {A B} (f : nat → A → Heap → option (B * Heap))
    (index : nat) (l : list A) (h : Heap) : option (list B * Heap) :=
  match l with
  | [] => Some ([], h)
  | x :: l' =>
      '(y, h1) ← f index x h;
      '(ys, h2) ← map_with_index f (S index) l' h1;
      Some (y :: ys, h2)
  end.

(** The partial state [getDerivedStateFromProps] returns. *)
Record DerivedState := {
  derived_routes : RouteArray;
  derived_scenes : list Scene;
  derived_gestures : gmap string nat;
  derived_descriptors : StackDescriptorMap;
  derived_headerHeights : gmap string Q;
}.

(** The outer [option] is [None] when the function throws; the inner one is
    the [null] of the early return. *)
Definition getDerivedStateFromProps (props : Props) (state : State) (h : Heap)
    : option (option DerivedState * Heap) :=
  if bool_decide (routes_id (routes props) = routes_id (state_routes state))
     && bool_decide (descs_id (descriptors props) = descs_id (state_descriptors state))
  then Some (None, h)
  else
    let '(gestures, h1) :=
      fold_left (gestures_step props state) (items (routes props)) (∅, h) in
    '(scenes, h2) ←
      map_with_index
        (scenes_callback props state gestures (items (routes props)))
        0 (items (routes props)) h1;
    Some
      (Some {| derived_routes := routes props;
               derived_scenes := scenes;
               derived_gestures := gestures;
               derived_descriptors := descriptors props;
               derived_headerHeights :=
                 getHeaderHeights (items (routes props)) (insets props)
                   (state_descriptors state) (layout state)
                   (headerHeights state) |},
       h2).

(** React merges the partial state into the state; [null] leaves it alone. *)
Definition merge_derived (state : State) (d : option DerivedState) : State :=
  match d with
  | None => state
  | Some d =>
      {| state_routes := derived_routes d;
         state_descriptors := derived_descriptors d;
         scenes := derived_scenes d;
         gestures := derived_gestures d;
         layout := layout state;
         headerHeights := derived_headerHeights d |}
  end.

(** One derivation: the state and heap after [getDerivedStateFromProps]. *)
Definition derive (props : Props) (sh : State * Heap) : option (State * Heap) :=
  '(d, h) ← getDerivedStateFromProps props sh.1 sh.2;
  Some (merge_derived sh.1 d, h).

(** *** The constructor and the layout handlers *)

(** [Dimensions.get('window')] is the argument [window]. *)
Definition constructor (props : Props) (window : Layout) (h : Heap) : State * Heap :=
  let '(routes_id, h1) := new_object h in
  let '(layout_id, h2) := new_object h1 in
  ({| state_routes := {| routes_id := routes_id; items := [] |};
      scenes := [];
      gestures := ∅;
      layout := {| layout_id := layout_id;
                   layout_value := {| width := width window;
                                      height := height window |} |};
      state_descriptors := descriptors props;
      headerHeights := ∅ |},
   h2).

(** [handleLayout]: [e] is [e.nativeEvent.layout]; [None] is the [null] of
    the updater. *)
Definition handleLayout (e : Layout) (props : Props) (state : State) (h : Heap)
    : option State * Heap :=
  let '(id, h') := new_object h in
  let layout' :=
    {| layout_id := id;
       layout_value := {| width := width e; height := height e |} |} in
  if Qeq_bool (height e) (height (layout state))
     && Qeq_bool (width e) (width (layout state))
  then (None, h')
  else
    (Some {| state_routes := state_routes state;
             state_descriptors := state_descriptors state;
             scenes := scenes state;
             gestures := gestures state;
             layout := layout';
             headerHeights :=
               getHeaderHeights (items (routes props)) (insets props)
                 (state_descriptors state) layout' (headerHeights state) |},
     h').

(** The updater of [handleHeaderLayout]: the new [headerHeights], or [None]
    for [null]. *)
Definition handleHeaderLayout_updater (route : Route) (height : Q)
    (headerHeights : gmap string Q) : option (gmap string Q) :=
  let previousHeight := headerHeights !! key route in
  match previousHeight with
  | Some previousHeight =>
      if Qeq_bool previousHeight height then None
      else Some (<[key route := height]> headerHeights)
  | None => Some (<[key route := height]> headerHeights)
  end.

Definition handleHeaderLayout (route : Route) (height : Q) (state : State)
    : option State :=
  headerHeights' ← handleHeaderLayout_updater route height (headerHeights state);
  Some {| state_routes := state_routes state;
          state_descriptors := state_descriptors state;
          scenes := scenes state;
          gestures := gestures state;
          layout := layout state;
          headerHeights := headerHeights' |}.

(** *** The component as a state machine

    React calls [getDerivedStateFromProps] when the props change and after
    every state update that is not [null]. *)
Record Component := {
  comp_props : Props;
  comp_state : State;
  comp_heap : Heap;
}.

Inductive Event :=
  | PropsChange (props : Props)
  | LayoutEvent (e : Layout)
  | HeaderLayoutEvent (route : Route) (height : Q).

Definition mount (props : Props) (window : Layout) (h : Heap) : option Component :=
  '(state, h') ← derive props (constructor props window h);
  Some {| comp_props := props; comp_state := state; comp_heap := h' |}.

Definition step (c : Component) (e : Event) : option Component :=
  match e with
  | PropsChange props =>
      '(state, h) ← derive props (comp_state c, comp_heap c);
      Some {| comp_props := props; comp_state := state; comp_heap := h |}
  | LayoutEvent e =>
      match handleLayout e (comp_props c) (comp_state c) (comp_heap c) with
      | (None, h) =>
          Some {| comp_props := comp_props c; comp_state := comp_state c;
                  comp_heap := h |}
      | (Some state, h) =>
          '(state', h') ← derive (comp_props c) (state, h);
          Some {| comp_props := comp_props c; comp_state := state';
                  comp_heap := h' |}
      end
  | HeaderLayoutEvent route height =>
      match handleHeaderLayout route height (comp_state c) with
      | None => Some c
      | Some state =>
          '(state', h') ← derive (comp_props c) (state, comp_heap c);
          Some {| comp_props := comp_props c; comp_state := state';
                  comp_heap := h' |}
      end
  end.

Fixpoint run (c : Component) (es : list Event) : option Component :=
  match es with
  | [] => Some c
  | e :: es' => step c e ≫= λ c', run c' es'
  end.

(** *** render *)

Record TransitionConfig := {
  config_gestureDirection : GestureDirection;
  config_transitionSpec : TransitionSpec;
  config_cardStyleInterpolator : CardStyleInterpolator;
  config_headerStyleInterpolator : HeaderStyleInterpolator;
}.

Definition modePreset (mode : StackCardMode) : TransitionPreset :=
  match mode with modal => ModalTransition | card => DefaultTransition end.

Definition defaultTransitionPreset (mode : StackCardMode) (headerMode : StackHeaderMode)
    : TransitionPreset :=
  let defaultTransitionPreset := modePreset mode in
  match headerMode with
  | screen =>
      {| preset_gestureDirection := preset_gestureDirection defaultTransitionPreset;
         preset_transitionSpec := preset_transitionSpec defaultTransitionPreset;
         preset_cardStyleInterpolator :=
           preset_cardStyleInterpolator defaultTransitionPreset;
         preset_headerStyleInterpolator := forNoAnimationHeader |}
  | _ => defaultTransitionPreset
  end.

(** The destructuring with defaults that [render] applies to the options of
    a descriptor (to the scene's own and to the next scene's). *)
Definition transitionConfig_of (defaultTransitionPreset : TransitionPreset)
    (options : StackNavigationOptions) : TransitionConfig :=
  {| config_gestureDirection :=
       default (preset_gestureDirection defaultTransitionPreset)
         (gestureDirection options);
     config_transitionSpec :=
       default (preset_transitionSpec defaultTransitionPreset)
         (transitionSpec options);
     config_cardStyleInterpolator :=
       default
         (if bool_decide (animationEnabled options = Some false)
          then forNoAnimationCard
          else preset_cardStyleInterpolator defaultTransitionPreset)
         (cardStyleInterpolator options);
     config_headerStyleInterpolator :=
       default (preset_headerStyleInterpolator defaultTransitionPreset)
         (headerStyleInterpolator options) |}.

Definition render_activeLimit (props : Props) : nat :=
  default (match mode props with modal => 2 | card => 1 end) (activeLimit props).

Definition render_screensEnabled (props : Props) : bool :=
  default (match mode props with modal => false | card => true end)
    (screensEnabled props).

(** The [active] prop of a screen: an animated node or the number 1. *)
Inductive ActiveProp :=
  | ActiveNumber (n : Q)
  | ActiveAnimated (a : Animated).

Definition isScreenActive (scenes : list Scene) (index activeLimit : nat) : ActiveProp :=
  match scenes !! (index + activeLimit) with
  | Some sceneForActivity =>
      ActiveAnimated
        (AnimatedInterpolation (current (progress sceneForActivity))
           {| inputRange := [0%Q; (1 - EPSILON)%Q; 1%Q];
              outputRange := [1%Q; 1%Q; 0%Q];
              extrapolate := clamp |})
  | None => ActiveNumber 1
  end.

Definition transitioning (scene : Scene) : Animated :=
  AnimatedInterpolation (current (progress scene))
    {| inputRange := [0%Q; EPSILON; (1 - EPSILON)%Q; 1%Q];
       outputRange := [0%Q; 1%Q; 1%Q; 0%Q];
       extrapolate := clamp |}.

Definition render_transitionConfig (props : Props) (scenes : list Scene)
    (self : list Route) (index : nat) (scene : Scene) : TransitionConfig :=
  let defaultTransitionPreset :=
    defaultTransitionPreset (mode props) (headerMode props) in
  let transitionConfig :=
    transitionConfig_of defaultTransitionPreset (options (descriptor scene)) in
  if bool_decide (index ≠ length self - 1) then
    match scenes !! S index with
    | Some nextScene =>
        transitionConfig_of defaultTransitionPreset (options (descriptor nextScene))
    | None => transitionConfig
    end
  else transitionConfig.

(** What [render] hands to the screen of one route. *)
Record ScreenProps := {
  screen_key : string;
  screen_active : ActiveProp;
  screen_transitioning : Animated;
  screen_isTop : bool;
  screen_transitionConfig : TransitionConfig;
}.

(** The callback of [routes.map] in [render]; [None] is the [TypeError] of
    reading [scene.progress] when there is no scene at [index]. *)
Definition render_screen (props : Props) (state : State)
    (index : nat) (route : Route) : option ScreenProps :=
  let self := items (routes props) in
  scene ← scenes state !! index;
  Some {| screen_key := key route;
          screen_active :=
            isScreenActive (scenes state) index (render_activeLimit props);
          screen_transitioning := transitioning scene;
          screen_isTop := bool_decide (index = length self - 1);
          screen_transitionConfig :=
            render_transitionConfig props (scenes state) self index scene |}.

Definition render (props : Props) (state : State) : option (list ScreenProps) :=
  mapM (λ ir, render_screen props state ir.1 ir.2) (imap pair (items (routes props))).

(** The number an [active] prop stands for under the current heap. *)
Definition activeValue (vals : gmap nat Q) (a : ActiveProp) : option Q :=
  match a with
  | ActiveNumber n => Some n
  | ActiveAnimated a => getValue vals a
  end.

(** *** The header height in the spec's words

    Second definitions, worded after section 4.3 of the spec, to compare
    [getHeaderHeights] with: an explicit numeric height of the header style;
    else the previous height of the key; else the platform's default for the
    layout and the status bar height, which is the descriptor's
    [headerStatusBarHeight], else the top inset as the route overrides it. *)
Definition explicitHeight (options : StackNavigationOptions) : option Q :=
  match headerStyle options with
  | Some style =>
      match style_height style with
      | Some (StyleNumber n) => Some n
      | _ => None
      end
  | None => None
  end.

Definition resolvedStatusBarHeight (insets : EdgeInsets)
    (options : StackNavigationOptions) : Q :=
  match headerStatusBarHeight options with
  | Some n => n
  | None =>
      match safeAreaInsets options ≫= top_option with
      | Some t => t
      | None => top insets
      end
  end.

Definition specHeaderHeight (insets : EdgeInsets) (descriptors : StackDescriptorMap)
    (layout : Layout) (previous : gmap string Q) (k : string) : Q :=
  let options := options_of (descs descriptors !! k) in
  match explicitHeight options with
  | Some n => n
  | None =>
      match previous !! k with
      | Some n => n
      | None => getDefaultHeaderHeight layout (resolvedStatusBarHeight insets options)
      end
  end.

(** *** The initial value of a gesture in the spec's words

    Second definition, worded after step 2 of section 4.4: the full
    transition distance when the key is opening and [animationEnabled] is
    not explicitly false, else 0. *)
Definition initialGestureValue (props : Props) (state : State) (k : string) : Q :=
  let descriptor := descs (descriptors props) !! k in
  if bool_decide (k ∈ openingRouteKeys props)
     && negb (bool_decide (animationEnabled (options_of descriptor) = Some false))
  then getDistanceFromOptions (mode props) (layout state) descriptor
  else 0%Q.

(** A key is among the routes of the props; an event keeps it there. *)
Definition route_present (k : string) (props : Props) : Prop :=
  k ∈ key <$> items (routes props).


End CardStack.

(** The interpolation of the activity window with the numbers of the spec
    (4.5): inputs [0, 1 - 0.01, 1], outputs [1, 1, 0], clamped. *)
Definition activeConfig : InterpolationConfig :=
  {| inputRange := [0%Q; (1 - 0.01)%Q; 1%Q];
     outputRange := [1%Q; 1%Q; 0%Q];
     extrapolate := clamp |}.

(** The condition of the early return of [getDerivedStateFromProps]. *)
Definition props_unchanged (props : Props) (state : State) : bool :=
  bool_decide (routes_id (routes props) = routes_id (state_routes state))
  && bool_decide (descs_id (descriptors props) = descs_id (state_descriptors state)).

(** The heap after [n] more objects. *)
Definition alloc (h : Heap) (n : nat) : Heap :=
  {| next_id := next_id h + n; values := values h |}.

(* ================================================================= *)
(** ** A concrete navigator

    Instances of the parameters (the iOS presets and header heights) and a
    small stack of routes, used to run the definitions. *)

Module Example.

Definition SlideFromRightIOS : TransitionPreset :=
  {| preset_gestureDirection := horizontal;
     preset_transitionSpec := Spec "TransitionIOSSpec";
     preset_cardStyleInterpolator := CardInterpolator "forHorizontalIOS";
     preset_headerStyleInterpolator := HeaderInterpolator "forFade" |}.

Definition ModalSlideFromBottomIOS : TransitionPreset :=
  {| preset_gestureDirection := vertical;
     preset_transitionSpec := Spec "TransitionIOSSpec";
     preset_cardStyleInterpolator := CardInterpolator "forVerticalIOS";
     preset_headerStyleInterpolator := HeaderInterpolator "forFade" |}.

Definition defaultHeaderHeight (layout : Layout) (statusBarHeight : Q) : Q :=
  ((if Qlt_bool (height layout) (width layout) then 32 else 44) + statusBarHeight)%Q.

Definition getDerivedStateFromProps :=
  getDerivedStateFromProps SlideFromRightIOS ModalSlideFromBottomIOS defaultHeaderHeight.
Definition derive :=
  derive SlideFromRightIOS ModalSlideFromBottomIOS defaultHeaderHeight.
Definition mount :=
  mount SlideFromRightIOS ModalSlideFromBottomIOS defaultHeaderHeight.
Definition run :=
  run SlideFromRightIOS ModalSlideFromBottomIOS defaultHeaderHeight.
Definition getProgressFromGesture :=
  getProgressFromGesture SlideFromRightIOS ModalSlideFromBottomIOS.
Definition getDistanceFromOptions :=
  getDistanceFromOptions SlideFromRightIOS ModalSlideFromBottomIOS.
Definition render_screen :=
  render_screen SlideFromRightIOS ModalSlideFromBottomIOS.

Definition routeA : Route := {| route_id := 1; key := "a"; name := "Home" |}.
Definition routeB : Route := {| route_id := 2; key := "b"; name := "List" |}.
Definition routeC : Route := {| route_id := 3; key := "c"; name := "Item" |}.
Definition routeD : Route := {| route_id := 4; key := "d"; name := "Edit" |}.

Definition plain (id : nat) : StackDescriptor :=
  {| desc_id := id; options := noOptions |}.



Definition insets0 : EdgeInsets :=
  {| top := 20; right := 0; bottom := 0; left := 0 |}.

Definition window : Layout := {| width := 320; height := 640 |}.

Definition heap0 : Heap := {| next_id := 100; values := ∅ |}.

Definition makeProps (mode : StackCardMode) (routes_id : nat) (routes : list Route)
    (descs_id : nat) (descs : gmap string StackDescriptor)
    (opening : list string) : Props :=
  {| mode := mode; insets := insets0;
     descriptors := {| descs_id := descs_id; descs := descs |};
     routes := {| routes_id := routes_id; items := routes |};
     openingRouteKeys := opening;
     headerMode := float; screensEnabled := None; activeLimit := None |}.

(** Four routes, none opening: a stack at rest. *)
Definition props4 (mode : StackCardMode) : Props :=
  makeProps mode 10 [routeA; routeB; routeC; routeD] 20
    (<["a" := plain 21]> (<["b" := plain 22]> (<["c" := plain 23]>
       (<["d" := plain 24]> ∅)))) [].


(** Route [b] is pushed on top of [a] and is opening. *)
Definition props1 : Props :=
  makeProps card 12 [routeA] 40 (<["a" := plain 41]> ∅) [].
Definition props2 : Props :=
  makeProps card 13 [routeA; routeB] 50
    (<["a" := plain 41]> (<["b" := plain 52]> ∅)) ["b"].
(** The same routes and descriptors as [props2], in a new array and a new
    map. *)
Definition props2' : Props :=
  makeProps card 14 [routeA; routeB] 60
    (<["a" := plain 41]> (<["b" := plain 52]> ∅)) ["b"].

(** Route [a] alone, opening, in a window that has no size yet. *)
Definition propsOpening : Props :=
  makeProps card 15 [routeA] 70 (<["a" := plain 71]> ∅) ["a"].
Definition zeroWindow : Layout := {| width := 0; height := 0 |}.


(** The state the constructor builds for [props1]. *)
Definition state0 : State := (constructor props1 window heap0).1.
Definition heap1 : Heap := (constructor props1 window heap0).2.

(** Routes [a] and [b] where the props no longer carry a descriptor for
    [b]; twice, in different arrays and maps. *)
Definition propsStale : Props :=
  makeProps card 18 [routeA; routeB] 95 (<["a" := plain 41]> ∅) [].
Definition propsStale' : Props :=
  makeProps card 19 [routeA; routeB] 96 (<["a" := plain 41]> ∅) [].

(** The identities of the scenes after mounting [props1] and a run of
    events. *)
Definition scene_ids_after (es : list Event) : option (list nat) :=
  c ← mount props1 window heap0;
  c' ← run c es;
  Some (scene_id <$> scenes (comp_state c')).

End Example.

(* ================================================================= *)
(** * Properties *)

Local Close Scope string_scope.

(** ** Numbers and interpolation *)

Lemma Qlt_bool_iff x y : Qlt_bool x y = true ↔ (x < y)%Q.
Proof.
  unfold Qlt_bool. rewrite negb_true_iff. split.
  - intros H. apply Qnot_le_lt. intros Hle.
    apply Qle_bool_iff in Hle. congruence.
  - intros H. destruct (Qle_bool y x) eqn:E; [|done].
    apply Qle_bool_iff in E. exfalso. revert E. apply Qlt_not_le, H.
Qed.

Lemma Qlt_bool_false x y : Qlt_bool x y = false ↔ (y <= x)%Q.
Proof.
  unfold Qlt_bool. rewrite negb_false_iff. apply Qle_bool_iff.
Qed.

Lemma Qeq_bool_false x y : Qeq_bool x y = false ↔ ¬ (x == y)%Q.
Proof.
  split.
  - intros H E. apply Qeq_bool_iff in E. congruence.
  - intros H. destruct (Qeq_bool x y) eqn:E; [|done].
    apply Qeq_bool_iff in E. contradiction.
Qed.

Lemma Math_max_lower x y : (x <= Math_max x y)%Q.
Proof. apply Q.le_max_l. Qed.

Lemma andb_decide_false (b : bool) (P : Prop) `{Decision P} :
  ¬ P → b && bool_decide P = false.
Proof. intros HP. rewrite bool_decide_eq_false_2 by done. apply andb_false_r. Qed.

Lemma findRange_two (x a b : Q) : findRange x [a; b] = 0.
Proof.
  unfold findRange. cbn [length findRange_loop].
  by rewrite bool_decide_eq_false_2 by (cbn; lia).
Qed.

(** A two-point interpolation that extends beyond its range is the line
    through the two points. *)
Lemma interpolate_extend_line (a b c d x : Q) :
  ¬ (a == b)%Q → ¬ (c == d)%Q →
  interpolate {| inputRange := [a; b]; outputRange := [c; d];
                 extrapolate := extend |} x
  = Some ((x - a) / (b - a) * (d - c) + c)%Q.
Proof.
  intros Hab Hcd. unfold interpolate. cbn [inputRange outputRange extrapolate].
  rewrite findRange_two. cbn -[interpolate_segment].
  unfold interpolate_segment.
  rewrite !andb_decide_false by done.
  apply Qeq_bool_false in Hab, Hcd. by rewrite Hab, Hcd.
Qed.

Section CardStackFacts.

Variable DefaultTransition ModalTransition : TransitionPreset.
Variable getDefaultHeaderHeight : Layout → Q → Q.

Local Abbreviation getDistanceFromOptions :=
  (getDistanceFromOptions DefaultTransition ModalTransition).
Local Abbreviation getProgressFromGesture :=
  (getProgressFromGesture DefaultTransition ModalTransition).
Local Abbreviation getHeaderHeights := (getHeaderHeights getDefaultHeaderHeight).
Local Abbreviation getHeaderHeights_step := (getHeaderHeights_step getDefaultHeaderHeight).
Local Abbreviation gestures_step := (gestures_step DefaultTransition ModalTransition).
Local Abbreviation scenes_callback := (scenes_callback DefaultTransition ModalTransition).
Local Abbreviation getDerivedStateFromProps :=
  (getDerivedStateFromProps DefaultTransition ModalTransition getDefaultHeaderHeight).
Local Abbreviation derive :=
  (derive DefaultTransition ModalTransition getDefaultHeaderHeight).
Local Abbreviation handleLayout := (handleLayout getDefaultHeaderHeight).
Local Abbreviation step := (step DefaultTransition ModalTransition getDefaultHeaderHeight).
Local Abbreviation run := (run DefaultTransition ModalTransition getDefaultHeaderHeight).
Local Abbreviation defaultTransitionPreset :=
  (defaultTransitionPreset DefaultTransition ModalTransition).
Local Abbreviation modePreset := (modePreset DefaultTransition ModalTransition).
Local Abbreviation render_transitionConfig :=
  (render_transitionConfig DefaultTransition ModalTransition).
Local Abbreviation render_screen := (render_screen DefaultTransition ModalTransition).

(** ** The distance of a layout that was coerced *)

Lemma nonZeroLayout_at_least_one layout :
  (1 <= width (nonZeroLayout layout))%Q ∧ (1 <= height (nonZeroLayout layout))%Q.
Proof. split; apply Math_max_lower. Qed.

Lemma nonZeroLayout_id layout :
  (1 <= width layout)%Q → (1 <= height layout)%Q →
  (width (nonZeroLayout layout) == width layout)%Q
  ∧ (height (nonZeroLayout layout) == height layout)%Q.
Proof.
  intros Hw Hh. unfold nonZeroLayout, Math_max. cbn.
  split; apply Q.max_r; done.
Qed.

Lemma distance_magnitude layout gestureDirection :
  (1 <= width layout)%Q → (1 <= height layout)%Q →
  (1 <= getDistanceForDirection layout gestureDirection)%Q
  ∨ (getDistanceForDirection layout gestureDirection <= -1)%Q.
Proof.
  intros Hw Hh. destruct gestureDirection; cbn; [left|right|left|right]; lra.
Qed.

Lemma nonZero_distance mode layout descriptor :
  (1 <= getDistanceFromOptions mode (nonZeroLayout layout) descriptor)%Q
  ∨ (getDistanceFromOptions mode (nonZeroLayout layout) descriptor <= -1)%Q.
Proof.
  destruct (nonZeroLayout_at_least_one layout) as [Hw Hh].
  by apply distance_magnitude.
Qed.

Lemma getDistanceForDirection_proper layout layout' gestureDirection :
  (width layout == width layout')%Q → (height layout == height layout')%Q →
  (getDistanceForDirection layout gestureDirection
   == getDistanceForDirection layout' gestureDirection)%Q.
Proof. intros Hw Hh. destruct gestureDirection; cbn; lra. Qed.

(** ** The progress of a gesture *)

Lemma getProgressFromGesture_cases mode gesture layout descriptor :
  let distance := getDistanceFromOptions mode (nonZeroLayout layout) descriptor in
  ((0 < distance)%Q
   ∧ getProgressFromGesture mode gesture layout descriptor
     = AnimatedInterpolation gesture
         {| inputRange := [0%Q; distance]; outputRange := [1%Q; 0%Q];
            extrapolate := extend |})
  ∨ ((distance < 0)%Q
     ∧ getProgressFromGesture mode gesture layout descriptor
       = AnimatedInterpolation gesture
           {| inputRange := [distance; 0%Q]; outputRange := [0%Q; 1%Q];
              extrapolate := extend |}).
Proof.
  intros distance. unfold getProgressFromGesture.
  fold distance.
  destruct (nonZero_distance mode layout descriptor) as [H|H]; fold distance in H.
  - left. split; [lra|].
    assert (Hlt : Qlt_bool 0 distance = true) by (apply Qlt_bool_iff; lra).
    by rewrite Hlt.
  - right. split; [lra|].
    assert (Hlt : Qlt_bool 0 distance = false) by (apply Qlt_bool_false; lra).
    by rewrite Hlt.
Qed.

(** The value of the progress node, as a function of the tracker's value. *)
Lemma getProgressFromGesture_value mode layout descriptor loc vals v :
  vals !! loc = Some v →
  let distance := getDistanceFromOptions mode (nonZeroLayout layout) descriptor in
  ∃ q, getValue vals (getProgressFromGesture mode (AnimatedValue loc) layout descriptor)
       = Some q
     ∧ (q == 1 - v / distance)%Q.
Proof.
  intros Hv distance.
  destruct (getProgressFromGesture_cases mode (AnimatedValue loc) layout descriptor)
    as [[Hd ->]|[Hd ->]]; fold distance in Hd |- *;
    cbn [getValue]; rewrite Hv; cbn [mbind option_bind];
    (rewrite interpolate_extend_line; [|lra|lra]);
    (eexists; split; [reflexivity|]); field; lra.
Qed.

(** C1 (amended): for every mode, layout and descriptor (hence every gesture
    direction), the progress mapper yields 1 when the tracker is at 0 (the
    screen is focused) and 0 when the tracker is at the full transition
    distance of the layout with both dimensions coerced to at least 1 (the
    screen is off-screen); for a layout whose dimensions are at least 1 that
    distance is the layout's own. *)
Theorem progress_from_gesture_endpoints mode layout descriptor loc vals v :
  vals !! loc = Some v →
  let distance := getDistanceFromOptions mode (nonZeroLayout layout) descriptor in
  let progress := getProgressFromGesture mode (AnimatedValue loc) layout descriptor in
  ((v == 0)%Q → ∃ q, getValue vals progress = Some q ∧ (q == 1)%Q)
  ∧ ((v == distance)%Q → ∃ q, getValue vals progress = Some q ∧ (q == 0)%Q)
  ∧ ((1 <= width layout)%Q → (1 <= height layout)%Q →
     (distance == getDistanceFromOptions mode layout descriptor)%Q).
Proof.
  intros Hv distance progress.
  destruct (getProgressFromGesture_value mode layout descriptor loc vals v Hv)
    as (q & Hq & Hval). fold distance in Hval. fold progress in Hq.
  assert (Hd : ¬ (distance == 0)%Q).
  { destruct (nonZero_distance mode layout descriptor) as [H|H];
      fold distance in H; lra. }
  split; [|split].
  - intros H0. exists q. split; [done|]. rewrite Hval, H0. field. done.
  - intros H1. exists q. split; [done|]. rewrite Hval, H1. field. done.
  - intros Hw Hh. subst distance. unfold getDistanceFromOptions.
    apply getDistanceForDirection_proper; by apply nonZeroLayout_id.
Qed.

(** C9 (amended): the layout that reaches the distance computation of the
    progress mapper has width and height at least 1, whatever the layout
    given, so the distance is not 0 and the input range of the
    interpolation is strictly increasing. *)
Theorem progress_input_range_not_degenerate mode gesture layout descriptor :
  let distance := getDistanceFromOptions mode (nonZeroLayout layout) descriptor in
  ((1 <= width (nonZeroLayout layout))%Q ∧ (1 <= height (nonZeroLayout layout))%Q)
  ∧ ¬ (distance == 0)%Q
  ∧ ∃ a b outputRange,
      getProgressFromGesture mode gesture layout descriptor
      = AnimatedInterpolation gesture
          {| inputRange := [a; b]; outputRange := outputRange;
             extrapolate := extend |}
      ∧ (a < b)%Q
      ∧ ((a = 0%Q ∧ b = distance) ∨ (a = distance ∧ b = 0%Q)).
Proof.
  intros distance. split; [apply nonZeroLayout_at_least_one|].
  destruct (getProgressFromGesture_cases mode gesture layout descriptor)
    as [[Hd ->]|[Hd ->]]; fold distance in Hd |- *.
  - split; [lra|]. exists 0%Q, distance, [1%Q; 0%Q]. auto.
  - split; [lra|]. exists distance, 0%Q, [0%Q; 1%Q]. auto.
Qed.

(** ** Header heights *)

Local Abbreviation specHeaderHeight := (specHeaderHeight getDefaultHeaderHeight).

Lemma getHeaderHeights_step_spec insets descriptors layout previous acc curr :
  getHeaderHeights_step insets descriptors layout previous acc curr
  = <[key curr := specHeaderHeight insets descriptors layout previous (key curr)]> acc.
Proof.
  unfold getHeaderHeights_step, specHeaderHeight, explicitHeight,
    resolvedStatusBarHeight, spread_insets.
  f_equal.
  destruct (options_of (descs descriptors !! key curr))
    as [[[[[n|s]|]]|] [[t r b l]|] [sb|] ? ? ? ? ?]; cbn;
    destruct (previous !! key curr); try done; by destruct t.
Qed.

Lemma fold_left_pointwise {A B} (f g : A → B → A) (l : list B) (a : A) :
  (∀ a b, f a b = g a b) → fold_left f l a = fold_left g l a.
Proof.
  intros Hfg. revert a. induction l as [|b l IH]; intros a; [done|].
  cbn. by rewrite Hfg, IH.
Qed.

Lemma fold_left_insert_lookup {V} (f : string → V) (l : list Route)
    (m : gmap string V) (k : string) :
  fold_left (λ acc curr, <[key curr := f (key curr)]> acc) l m !! k
  = if bool_decide (k ∈ key <$> l) then Some (f k) else m !! k.
Proof.
  revert m. induction l as [|x l IH]; intros m; [done|].
  cbn [fold_left]. rewrite IH. rewrite fmap_cons.
  destruct (decide (k ∈ key <$> l)) as [Hin|Hin].
  - rewrite !bool_decide_eq_true_2; [done| |done].
    apply elem_of_cons. by right.
  - rewrite (bool_decide_eq_false_2 _ Hin).
    destruct (decide (k = key x)) as [->|Hne].
    + rewrite lookup_insert_eq. rewrite bool_decide_eq_true_2; [done|].
      apply elem_of_cons. by left.
    + rewrite lookup_insert_ne by done.
      rewrite bool_decide_eq_false_2; [done|].
      intros [?|?]%elem_of_cons; done.
Qed.

Lemma getHeaderHeights_lookup routes insets descriptors layout previous k :
  getHeaderHeights routes insets descriptors layout previous !! k
  = if bool_decide (k ∈ key <$> routes)
    then Some (specHeaderHeight insets descriptors layout previous k)
    else None.
Proof.
  unfold getHeaderHeights.
  rewrite (fold_left_pointwise _
             (λ acc curr, <[key curr :=
                specHeaderHeight insets descriptors layout previous (key curr)]> acc)).
  - by rewrite fold_left_insert_lookup, lookup_empty.
  - intros acc curr. apply getHeaderHeights_step_spec.
Qed.

Lemma getHeaderHeights_route routes insets descriptors layout previous r :
  r ∈ routes →
  getHeaderHeights routes insets descriptors layout previous !! key r
  = Some (specHeaderHeight insets descriptors layout previous (key r)).
Proof.
  intros Hr. rewrite getHeaderHeights_lookup.
  rewrite bool_decide_eq_true_2; [done|]. by apply list_elem_of_fmap_2.
Qed.

(** C7: recomputing the header heights gives every route the explicit
    numeric height of its header style if there is one, else the previous
    height of its key if there is one, else the platform's default for the
    layout and the resolved status bar height; so a route with previous
    height H and no explicit height keeps H; and the keys of the result are
    exactly the keys of the routes given. *)
Theorem header_heights_recompute routes insets descriptors layout
    (previous : gmap string Q) :
  let heights := getHeaderHeights routes insets descriptors layout previous in
  (∀ r, r ∈ routes →
        heights !! key r
        = Some (specHeaderHeight insets descriptors layout previous (key r)))
  ∧ (∀ r H, r ∈ routes →
            explicitHeight (options_of (descs descriptors !! key r)) = None →
            previous !! key r = Some H →
            heights !! key r = Some H)
  ∧ dom heights = list_to_set (key <$> routes).
Proof.
  intros heights. split; [|split].
  - intros r Hr. by apply getHeaderHeights_route.
  - intros r H Hr Hexp Hprev. subst heights.
    rewrite getHeaderHeights_route by done.
    unfold specHeaderHeight. by rewrite Hexp, Hprev.
  - apply set_eq. intros k. rewrite elem_of_dom, elem_of_list_to_set.
    subst heights. rewrite getHeaderHeights_lookup.
    case_bool_decide as Hk; split; intros H'; first [done | by destruct H'].
Qed.

(** C8: recording a measured header height equal to the height stored for
    the key is a no-op: the updater returns null, and the component, its
    heap included, stays as it is (no derivation runs).  Otherwise the
    update sets the entry of that key to the new height and leaves every
    other entry, and every other field of the state, unchanged. *)
Theorem header_layout_noop_or_single_update (c : Component) route height :
  let state := comp_state c in
  (∀ previousHeight,
      headerHeights state !! key route = Some previousHeight →
      (previousHeight == height)%Q →
      handleHeaderLayout route height state = None
      ∧ step c (HeaderLayoutEvent route height) = Some c)
  ∧ ((∀ previousHeight,
        headerHeights state !! key route = Some previousHeight →
        ¬ (previousHeight == height)%Q) →
     ∃ state',
       handleHeaderLayout route height state = Some state'
       ∧ headerHeights state' !! key route = Some height
       ∧ (∀ k, k ≠ key route →
               headerHeights state' !! k = headerHeights state !! k)
       ∧ state_routes state' = state_routes state
       ∧ state_descriptors state' = state_descriptors state
       ∧ scenes state' = scenes state
       ∧ gestures state' = gestures state
       ∧ layout state' = layout state).
Proof.
  intros state. split.
  - intros previousHeight Hprev Heq.
    assert (Hnone : handleHeaderLayout route height state = None).
    { unfold handleHeaderLayout, handleHeaderLayout_updater. rewrite Hprev.
      apply Qeq_bool_iff in Heq. by rewrite Heq. }
    split; [done|]. unfold step.
    fold state. by rewrite Hnone.
  - intros Hne.
    exists {| state_routes := state_routes state;
              state_descriptors := state_descriptors state;
              scenes := scenes state;
              gestures := gestures state;
              layout := layout state;
              headerHeights := <[key route := height]> (headerHeights state) |}.
    split.
    + unfold handleHeaderLayout, handleHeaderLayout_updater.
      destruct (headerHeights state !! key route) as [p|] eqn:Hp; [|done].
      specialize (Hne p eq_refl). apply Qeq_bool_false in Hne. by rewrite Hne.
    + cbn. split; [apply lookup_insert_eq|].
      split; [|done]. intros k Hk. by apply lookup_insert_ne.
Qed.

(** ** Gesture trackers *)

Local Abbreviation initialGestureValue :=
  (initialGestureValue DefaultTransition ModalTransition).

Lemma gestures_step_old props state acc curr g :
  gestures state !! key curr = Some g →
  gestures_step props state acc curr = (<[key curr := g]> acc.1, acc.2).
Proof. intros Hg. unfold gestures_step. by rewrite Hg. Qed.

Lemma gestures_step_new props state acc curr :
  gestures state !! key curr = None →
  gestures_step props state acc curr
  = (<[key curr := next_id acc.2]> acc.1,
     {| next_id := S (next_id acc.2);
        values := <[next_id acc.2 := initialGestureValue props state (key curr)]>
                    (values acc.2) |}).
Proof. intros Hg. unfold gestures_step. by rewrite Hg. Qed.

(** What the reduction over the routes does to the heap and to each key. *)
Lemma gestures_fold props state l :
  ∀ acc h acc' h',
    fold_left (gestures_step props state) l (acc, h) = (acc', h') →
    next_id h ≤ next_id h'
    ∧ (∀ loc, loc < next_id h → values h' !! loc = values h !! loc)
    ∧ (∀ k, k ∉ key <$> l → acc' !! k = acc !! k)
    ∧ (∀ k g, k ∈ key <$> l → gestures state !! k = Some g → acc' !! k = Some g)
    ∧ (∀ k, k ∈ key <$> l → gestures state !! k = None →
            ∃ g, acc' !! k = Some g
                 ∧ next_id h ≤ g < next_id h'
                 ∧ values h' !! g = Some (initialGestureValue props state k)).
Proof.
  induction l as [|x l IH]; intros acc h acc' h' Hfold.
  - cbn in Hfold. injection Hfold as <- <-.
    split; [lia|]. split; [done|]. split; [done|].
    split; intros k; [intros g|]; rewrite fmap_nil; intros []%elem_of_nil.
  - cbn [fold_left] in Hfold.
    destruct (gestures_step props state (acc, h) x) as [acc1 h1] eqn:Hstep.
    destruct (IH _ _ _ _ Hfold) as (Hn & Hv & Hout & Hold & Hnew).
    assert (Hstep' :
      next_id h ≤ next_id h1
      ∧ (∀ loc, loc < next_id h → values h1 !! loc = values h !! loc)
      ∧ (∀ k, k ≠ key x → acc1 !! k = acc !! k)
      ∧ (∀ g, gestures state !! key x = Some g → acc1 !! key x = Some g)
      ∧ (gestures state !! key x = None →
         acc1 !! key x = Some (next_id h) ∧ next_id h < next_id h1
         ∧ values h1 !! next_id h
           = Some (initialGestureValue props state (key x)))).
    { destruct (gestures state !! key x) as [g0|] eqn:Hg.
      - rewrite (gestures_step_old _ _ _ _ _ Hg) in Hstep. cbn in Hstep.
        injection Hstep as <- <-.
        split; [lia|]. split; [done|]. split; [|split; [|done]].
        + intros k Hk. by rewrite lookup_insert_ne.
        + intros g [= <-]. apply lookup_insert_eq.
      - rewrite (gestures_step_new _ _ _ _ Hg) in Hstep. cbn in Hstep.
        injection Hstep as <- <-. cbn.
        split; [lia|]. split; [|split; [|split; [done|]]].
        + intros loc Hloc. rewrite lookup_insert_ne; [done|lia].
        + intros k Hk. by rewrite lookup_insert_ne.
        + intros _. split; [apply lookup_insert_eq|].
          split; [lia|apply lookup_insert_eq]. }
    destruct Hstep' as (Hn1 & Hv1 & Hout1 & Hold1 & Hnew1).
    split; [lia|]. split; [|split; [|split]].
    + intros loc Hloc. rewrite Hv by lia. by apply Hv1.
    + intros k Hk. rewrite fmap_cons, not_elem_of_cons in Hk.
      destruct Hk as [Hkx Hkl]. rewrite Hout by done. by apply Hout1.
    + intros k g Hk Hg. destruct (decide (k ∈ key <$> l)) as [Hin|Hin].
      * by apply Hold.
      * rewrite fmap_cons, elem_of_cons in Hk. destruct Hk as [->|]; [|done].
        rewrite Hout by done. by apply Hold1.
    + intros k Hk Hg. destruct (decide (k ∈ key <$> l)) as [Hin|Hin].
      * destruct (Hnew k Hin Hg) as (g & Hacc & Hrange & Hval).
        exists g. split; [done|]. split; [lia|done].
      * rewrite fmap_cons, elem_of_cons in Hk. destruct Hk as [->|]; [|done].
        destruct (Hnew1 Hg) as (Hacc & Hlt & Hval).
        exists (next_id h). rewrite Hout by done.
        split; [done|]. split; [lia|]. by rewrite Hv by lia.
Qed.

Lemma gestures_fold_is_Some props state l acc h acc' h' k :
  fold_left (gestures_step props state) l (acc, h) = (acc', h') →
  k ∈ key <$> l → is_Some (acc' !! k).
Proof.
  intros Hfold Hk.
  destruct (gestures_fold _ _ _ _ _ _ _ Hfold) as (_ & _ & _ & Hold & Hnew).
  destruct (gestures state !! k) as [g|] eqn:Hg.
  - exists g. by apply Hold.
  - destruct (Hnew k Hk Hg) as (g & Hacc & _). by exists g.
Qed.

(** When the state already holds a gesture for every route, the reduction
    allocates nothing. *)
Lemma gestures_fold_no_alloc props state l :
  ∀ acc h,
    (∀ k, k ∈ key <$> l → is_Some (gestures state !! k)) →
    (fold_left (gestures_step props state) l (acc, h)).2 = h.
Proof.
  induction l as [|x l IH]; intros acc h Hall; [done|].
  cbn [fold_left].
  destruct (Hall (key x)) as [g Hg]; [rewrite fmap_cons; apply elem_of_cons; by left|].
  rewrite (gestures_step_old _ _ _ _ _ Hg). cbn.
  apply IH. intros k Hk. apply Hall. rewrite fmap_cons. apply elem_of_cons. by right.
Qed.

(** ** Scenes *)

Lemma alloc_0 h : alloc h 0 = h.
Proof. destruct h. unfold alloc. cbn. f_equal. lia. Qed.

Lemma alloc_S h n : alloc (alloc h 1) n = alloc h (S n).
Proof. unfold alloc. cbn. f_equal. lia. Qed.

(** The scene the callback returns is the old scene when the memo matches
    and a new object otherwise; either way it carries the memo computed in
    this derivation. *)
Lemma scenes_callback_inv props state gestures self index r h sc h' :
  scenes_callback props state gestures self index r h = Some (sc, h') →
  ∃ g, gestures !! key r = Some g
     ∧ h' = alloc h 1
     ∧ __memo sc = scene_memo props state gestures self index r g
     ∧ ((∃ oldScene, scenes state !! index = Some oldScene
                     ∧ __memo oldScene
                       = scene_memo props state gestures self index r g
                     ∧ sc = oldScene)
        ∨ (scene_id sc = next_id h
           ∧ route sc = r
           ∧ descriptor sc = scene_descriptor props state index r
           ∧ ∀ oldScene, scenes state !! index = Some oldScene →
                         __memo oldScene
                         ≠ scene_memo props state gestures self index r g)).
Proof.
  unfold scenes_callback. intros H.
  destruct (gestures !! key r) as [g|] eqn:Hg; [|done].
  cbn in H. exists g. split; [done|].
  assert (Halloc : {| next_id := S (next_id h); values := values h |} = alloc h 1).
  { unfold alloc. f_equal. lia. }
  destruct (scenes state !! index) as [oldScene|] eqn:Hold.
  - case_bool_decide as Hm; injection H as <- <-.
    + split; [done|]. split; [done|]. left. by exists oldScene.
    + split; [done|]. split; [done|]. right.
      split; [done|]. split; [done|]. split; [done|]. by intros ? [= <-].
  - injection H as <- <-. split; [done|]. split; [done|]. right. done.
Qed.

Lemma scenes_callback_total props state gestures self index route h :
  is_Some (gestures !! key route) →
  is_Some (scenes_callback props state gestures self index route h).
Proof.
  intros [g Hg]. unfold scenes_callback. rewrite Hg. cbn.
  destruct (scenes state !! index); [case_bool_decide|]; done.
Qed.

Lemma scenes_map props state gestures self l :
  ∀ index h scs h',
    map_with_index (scenes_callback props state gestures self) index l h
    = Some (scs, h') →
    length scs = length l
    ∧ h' = alloc h (length l)
    ∧ ∀ i r, l !! i = Some r →
        ∃ sc, scs !! i = Some sc
            ∧ scenes_callback props state gestures self (index + i) r (alloc h i)
              = Some (sc, alloc h (S i)).
Proof.
  induction l as [|x l IH]; intros index h scs h' Hmap.
  - cbn in Hmap. injection Hmap as <- <-. by rewrite alloc_0.
  - cbn [map_with_index] in Hmap.
    destruct (scenes_callback props state gestures self index x h)
      as [[y h1]|] eqn:Hy; [|done].
    cbn in Hmap.
    destruct (map_with_index _ (S index) l h1) as [[ys h2]|] eqn:Hys; [|done].
    cbn in Hmap. injection Hmap as <- <-.
    destruct (scenes_callback_inv _ _ _ _ _ _ _ _ _ Hy) as (g & _ & -> & _).
    destruct (IH _ _ _ _ Hys) as (Hlen & -> & Hlook).
    split; [cbn; by rewrite Hlen|]. split; [by rewrite alloc_S|].
    intros [|i] r Hr.
    + cbn in Hr. injection Hr as <-. exists y.
      rewrite Nat.add_0_r, alloc_0. done.
    + cbn in Hr. destruct (Hlook i r Hr) as (sc & Hsc & Hcall).
      exists sc. split; [done|].
      rewrite !alloc_S in Hcall. by rewrite <- Nat.add_succ_comm.
Qed.

Lemma scenes_map_total props state gestures self l :
  ∀ index h,
    (∀ r, r ∈ l → is_Some (gestures !! key r)) →
    is_Some (map_with_index (scenes_callback props state gestures self) index l h).
Proof.
  induction l as [|x l IH]; intros index h Hall; [done|].
  cbn [map_with_index].
  destruct (scenes_callback_total props state gestures self index x h)
    as [[y h1] Hy]; [apply Hall, elem_of_cons; by left|].
  rewrite Hy. cbn.
  destruct (IH (S index) h1) as [[ys h2] Hys].
  { intros r Hr. apply Hall, elem_of_cons. by right. }
  rewrite Hys. done.
Qed.

(** ** getDerivedStateFromProps *)

Lemma getDerivedStateFromProps_null props state h :
  props_unchanged props state = true →
  getDerivedStateFromProps props state h = Some (None, h).
Proof.
  unfold props_unchanged, getDerivedStateFromProps. by intros ->.
Qed.

Lemma getDerivedStateFromProps_update props state h d h' :
  getDerivedStateFromProps props state h = Some (Some d, h') →
  ∃ h1,
    props_unchanged props state = false
    ∧ fold_left (gestures_step props state) (items (routes props)) (∅, h)
      = (derived_gestures d, h1)
    ∧ map_with_index
        (scenes_callback props state (derived_gestures d) (items (routes props)))
        0 (items (routes props)) h1
      = Some (derived_scenes d, h')
    ∧ derived_routes d = routes props
    ∧ derived_descriptors d = descriptors props
    ∧ derived_headerHeights d
      = getHeaderHeights (items (routes props)) (insets props)
          (state_descriptors state) (layout state) (headerHeights state).
Proof.
  unfold getDerivedStateFromProps. fold (props_unchanged props state).
  destruct (props_unchanged props state); [done|].
  destruct (fold_left _ _ _) as [gs h1] eqn:Hfold.
  destruct (map_with_index _ _ _ _) as [[scs h2]|] eqn:Hmap; [|done].
  cbn. intros [= <- <-]. exists h1. done.
Qed.

(** The function never throws: every route finds its gesture. *)
Lemma getDerivedStateFromProps_total props state h :
  ∃ d h', getDerivedStateFromProps props state h = Some (d, h')
          ∧ (props_unchanged props state = true → d = None ∧ h' = h)
          ∧ (props_unchanged props state = false → is_Some d).
Proof.
  unfold getDerivedStateFromProps. fold (props_unchanged props state).
  destruct (props_unchanged props state).
  - exists None, h. done.
  - destruct (fold_left _ _ _) as [gs h1] eqn:Hfold.
    destruct (scenes_map_total props state gs (items (routes props))
                (items (routes props)) 0 h1) as [[scs h2] Hmap].
    { intros r Hr. eapply gestures_fold_is_Some; [done|].
      by apply list_elem_of_fmap_2. }
    rewrite Hmap. cbn. eexists (Some _), h2. done.
Qed.

Lemma derive_total props state h :
  is_Some (derive props (state, h)).
Proof.
  destruct (getDerivedStateFromProps_total props state h) as (d & h' & Hd & _).
  unfold derive. cbn. by rewrite Hd.
Qed.

Lemma derive_inv props state h state' h' :
  derive props (state, h) = Some (state', h') →
  (state' = state ∧ h' = h ∧ props_unchanged props state = true)
  ∨ ∃ d, getDerivedStateFromProps props state h = Some (Some d, h')
         ∧ state' = merge_derived state (Some d).
Proof.
  unfold derive. cbn.
  destruct (getDerivedStateFromProps_total props state h)
    as (d & h1 & Hd & Hnull & Hupd).
  rewrite Hd. cbn. intros [= <- <-].
  destruct (props_unchanged props state).
  - left. destruct Hnull as [-> ->]; done.
  - right. destruct Hupd as [d' ->]; [done|]. by exists d'.
Qed.

(** ** Creation and continuity of the gesture trackers *)

Lemma derived_gestures_spec props state h d h' :
  getDerivedStateFromProps props state h = Some (Some d, h') →
  ∃ h1,
    fold_left (gestures_step props state) (items (routes props)) (∅, h)
    = (derived_gestures d, h1)
    ∧ values h' = values h1 ∧ next_id h1 ≤ next_id h'.
Proof.
  intros Hd.
  destruct (getDerivedStateFromProps_update _ _ _ _ _ Hd)
    as (h1 & _ & Hfold & Hmap & _).
  exists h1. split; [done|].
  destruct (scenes_map _ _ _ _ _ _ _ _ _ Hmap) as (_ & -> & _).
  unfold alloc. cbn. split; [done|lia].
Qed.

(** C3: a derivation gives a route that had no gesture tracker a new one
    (a location the heap had not allocated), whose initial value is the
    full transition distance, computed from the mode, the state's layout and
    the gesture direction of the route's descriptor in the props, when the
    key is in the opening set and [animationEnabled] is not explicitly
    false, and 0 otherwise; when that distance is not 0, the value is the
    distance if and only if both conditions hold. *)
Theorem new_gesture_initial_value props state h d h' r :
  getDerivedStateFromProps props state h = Some (Some d, h') →
  r ∈ items (routes props) →
  gestures state !! key r = None →
  let descriptor := descs (descriptors props) !! key r in
  let opening := bool_decide (key r ∈ openingRouteKeys props) in
  let animated :=
    negb (bool_decide (animationEnabled (options_of descriptor) = Some false)) in
  let distance := getDistanceFromOptions (mode props) (layout state) descriptor in
  ∃ g v,
    derived_gestures d !! key r = Some g
    ∧ next_id h ≤ g < next_id h'
    ∧ values h' !! g = Some v
    ∧ v = initialGestureValue props state (key r)
    ∧ (opening && animated = true → v = distance)
    ∧ (opening && animated = false → v = 0%Q)
    ∧ (¬ (distance == 0)%Q → ((v == distance)%Q ↔ opening && animated = true)).
Proof.
  intros Hd Hr Hnone descriptor opening animated distance.
  destruct (derived_gestures_spec _ _ _ _ _ Hd) as (h1 & Hfold & Hvals & Hnext).
  destruct (gestures_fold _ _ _ _ _ _ _ Hfold) as (_ & _ & _ & _ & Hnew).
  destruct (Hnew (key r)) as (g & Hg & Hrange & Hval);
    [by apply list_elem_of_fmap_2|done|].
  exists g, (initialGestureValue props state (key r)).
  split; [done|]. split; [lia|]. split; [by rewrite Hvals|]. split; [done|].
  unfold initialGestureValue.
  fold descriptor. fold opening. fold animated. fold distance.
  destruct (opening && animated).
  - split; [done|]. split; [done|]. done.
  - split; [done|]. split; [done|]. intros Hne. split; [|done].
    intros H0. exfalso. apply Hne. by symmetry.
Qed.


Lemma step_total c e : is_Some (step c e).
Proof.
  destruct e as [props|e|route height]; unfold step.
  - destruct (derive_total props (comp_state c) (comp_heap c)) as [[s h] ->]. done.
  - destruct (handleLayout e (comp_props c) (comp_state c) (comp_heap c))
      as [[s|] h]; [|done].
    destruct (derive_total (comp_props c) s h) as [[s' h'] ->]. done.
  - destruct (handleHeaderLayout route height (comp_state c)) as [s|]; [|done].
    destruct (derive_total (comp_props c) s (comp_heap c)) as [[s' h'] ->]. done.
Qed.

Lemma run_total es : ∀ c, is_Some (run c es).
Proof.
  induction es as [|e es IH]; intros c; [done|].
  cbn. destruct (step_total c e) as [c' ->]. cbn. apply IH.
Qed.





(** ** Memoised scenes *)

(** The scenes of a derivation: one per route, each with the memo computed
    in this derivation. *)
Lemma derived_scenes_spec props state h d h' :
  getDerivedStateFromProps props state h = Some (Some d, h') →
  length (derived_scenes d) = length (items (routes props))
  ∧ ∀ index r, items (routes props) !! index = Some r →
      ∃ sc g hi,
        derived_scenes d !! index = Some sc
        ∧ derived_gestures d !! key r = Some g
        ∧ scenes_callback props state (derived_gestures d) (items (routes props))
            index r hi
          = Some (sc, alloc hi 1)
        ∧ __memo sc
          = scene_memo props state (derived_gestures d) (items (routes props))
              index r g.
Proof.
  intros Hd.
  destruct (getDerivedStateFromProps_update _ _ _ _ _ Hd)
    as (h1 & _ & _ & Hmap & _).
  destruct (scenes_map _ _ _ _ _ _ _ _ _ Hmap) as (Hlen & _ & Hlook).
  split; [done|]. intros index r Hr.
  destruct (Hlook index r Hr) as (sc & Hsc & Hcall). cbn in Hcall.
  destruct (scenes_callback_inv _ _ _ _ _ _ _ _ _ Hcall) as (g & Hg & Hh & Hmemo & _).
  exists sc, g, (alloc h1 index). rewrite <- Hh. done.
Qed.


(** A scene that is not reused is a new object. *)
Lemma derived_scene_fresh props state h d h' index r g sc :
  getDerivedStateFromProps props state h = Some (Some d, h') →
  items (routes props) !! index = Some r →
  derived_gestures d !! key r = Some g →
  derived_scenes d !! index = Some sc →
  (∀ oldScene, scenes state !! index = Some oldScene →
     scene_memo props state (derived_gestures d) (items (routes props)) index r g
     ≠ __memo oldScene) →
  next_id h ≤ scene_id sc < next_id h'.
Proof.
  intros Hd Hr Hg Hsc Hne.
  destruct (getDerivedStateFromProps_update _ _ _ _ _ Hd)
    as (h1 & _ & Hfold & Hmap & _).
  destruct (gestures_fold _ _ _ _ _ _ _ Hfold) as (Hn & _).
  destruct (scenes_map _ _ _ _ _ _ _ _ _ Hmap) as (Hlen & -> & Hlook).
  destruct (Hlook index r Hr) as (sc' & Hsc' & Hcall). cbn in Hcall.
  assert (sc' = sc) as -> by congruence.
  apply lookup_lt_Some in Hr.
  destruct (scenes_callback_inv _ _ _ _ _ _ _ _ _ Hcall)
    as (g' & Hg' & _ & _ & [(old & Hold & Hm & ->)|(Hid & _)]).
  - exfalso. apply (Hne old Hold). congruence.
  - rewrite Hid. unfold alloc. cbn. lia.
Qed.



Lemma nextRoute_of_elem (l : list Route) index r :
  nextRoute_of l index = Some r → r ∈ l.
Proof. unfold nextRoute_of. apply list_elem_of_lookup_2. Qed.

Lemma previousRoute_of_elem (l : list Route) index r :
  previousRoute_of l index = Some r → r ∈ l.
Proof.
  unfold previousRoute_of. destruct index; [done|]. apply list_elem_of_lookup_2.
Qed.



(** ** Header heights in a derivation *)


(** ** render: the activity window *)

Lemma findRange_active (p : Q) :
  findRange p [0%Q; (1 - EPSILON)%Q; 1%Q]
  = if Qle_bool p (1 - EPSILON) then 0 else 1.
Proof.
  unfold findRange. cbn [length findRange_loop].
  rewrite bool_decide_eq_true_2 by (cbn; lia). cbn [lookup list_lookup].
  destruct (Qle_bool p (1 - EPSILON)); [done|].
  by rewrite bool_decide_eq_false_2 by (cbn; lia).
Qed.

(** The interpolation behind [isScreenActive]: 1 up to [1 - EPSILON], 0 from
    1 on, and the line between them in between. *)
Lemma active_interpolation (p : Q) :
  ∃ a,
    interpolate {| inputRange := [0%Q; (1 - EPSILON)%Q; 1%Q];
                   outputRange := [1%Q; 1%Q; 0%Q];
                   extrapolate := clamp |} p = Some a
    ∧ ((p <= 1 - EPSILON)%Q → (a == 1)%Q)
    ∧ ((1 <= p)%Q → (a == 0)%Q)
    ∧ ((1 - EPSILON < p)%Q → (p < 1)%Q →
       (a == (1 - p) / EPSILON)%Q ∧ (0 < a)%Q ∧ (a < 1)%Q).
Proof.
  unfold interpolate. cbn [inputRange outputRange extrapolate].
  rewrite findRange_active.
  destruct (Qle_bool p (1 - EPSILON)) eqn:Hle.
  - apply Qle_bool_iff in Hle. cbn -[interpolate_segment EPSILON Qminus].
    eexists. split; [reflexivity|].
    unfold interpolate_segment, EPSILON in *.
    rewrite !andb_decide_false by done.
    change (Qeq_bool 1 1) with true. cbn [negb].
    split; [done|]. split; intros; lra.
  - assert (Hlt : (1 - EPSILON < p)%Q).
    { apply Qnot_le_lt. intros H. apply Qle_bool_iff in H. congruence. }
    cbn -[interpolate_segment EPSILON Qminus].
    eexists. split; [reflexivity|].
    unfold interpolate_segment.
    rewrite !andb_decide_false by done.
    rewrite bool_decide_eq_true_2 by done. rewrite andb_true_r.
    assert (Hlo : Qlt_bool p (1 - EPSILON) = false)
      by (apply Qlt_bool_false; lra).
    rewrite Hlo. cbn [andb].
    change (Qeq_bool 1 0) with false. change (Qeq_bool (1 - EPSILON) 1) with false.
    cbn [negb]. unfold EPSILON in *.
    destruct (Qlt_bool 1 p) eqn:Hhi.
    + apply Qlt_bool_iff in Hhi.
      split; [intros; lra|]. split; [intros; field|]. intros; lra.
    + apply Qlt_bool_false in Hhi.
      split; [intros; lra|]. split.
      * intros H1. assert (Hp : (p == 1)%Q) by lra. rewrite Hp. field.
      * intros _ Hp1.
        match goal with
        | |- (?e == _)%Q ∧ _ =>
            assert (Hval : (e == 100 * (1 - p))%Q) by field
        end.
        split; [field|]. rewrite Hval. lra.
Qed.

(** C5: the active limit defaults to 1 in card mode and to 2 in modal mode.
    The screen at an index is active (value 1) when there is no scene at
    index + activeLimit; otherwise its activity is the progress of that
    scene interpolated over [0, 1 - 0.01, 1] to [1, 1, 0] with clamping,
    which is 0 exactly when that progress has reached 1.  So in a stack
    whose scenes all rest at progress 1, the screens within activeLimit of
    the top have activity 1 and all others 0. *)
Theorem activity_window props (scenes : list Scene) (vals : gmap nat Q) index :
  let limit := render_activeLimit props in
  let active := isScreenActive scenes index limit in
  (activeLimit props = None →
   limit = match mode props with modal => 2 | card => 1 end)
  ∧ (scenes !! (index + limit) = None →
     active = ActiveNumber 1 ∧ activeValue vals active = Some 1%Q)
  ∧ (∀ sc p,
       scenes !! (index + limit) = Some sc →
       getValue vals (current (progress sc)) = Some p →
       active = ActiveAnimated
                  (AnimatedInterpolation (current (progress sc)) activeConfig)
       ∧ ∃ a, activeValue vals active = Some a
              ∧ (0 <= a)%Q ∧ (a <= 1)%Q
              ∧ ((a == 0)%Q ↔ (1 <= p)%Q)
              ∧ ((p <= 1 - 0.01)%Q → (a == 1)%Q))
  ∧ ((∀ sc, sc ∈ scenes →
            ∃ p, getValue vals (current (progress sc)) = Some p ∧ (p == 1)%Q) →
     ∃ a, activeValue vals active = Some a
          ∧ (a == (if bool_decide (index + limit < length scenes)%nat
                   then 0 else 1))%Q).
Proof.
  intros limit active.
  assert (Hsome : ∀ sc p,
       scenes !! (index + limit) = Some sc →
       getValue vals (current (progress sc)) = Some p →
       active = ActiveAnimated
                  (AnimatedInterpolation (current (progress sc)) activeConfig)
       ∧ ∃ a, activeValue vals active = Some a
              ∧ (0 <= a)%Q ∧ (a <= 1)%Q
              ∧ ((a == 0)%Q ↔ (1 <= p)%Q)
              ∧ ((p <= 1 - 0.01)%Q → (a == 1)%Q)).
  { intros sc p Hsc Hp. subst active. unfold isScreenActive. rewrite Hsc.
    split; [done|].
    destruct (active_interpolation p) as (a & Ha & Hlow & Hhigh & Hmid).
    unfold EPSILON in *.
    exists a. split.
    { cbn [activeValue getValue]. rewrite Hp. exact Ha. }
    destruct (Qlt_le_dec p 1) as [Hp1|Hp1].
    - destruct (Qlt_le_dec (1 - 0.01) p) as [Hp0|Hp0].
      + destruct (Hmid Hp0 Hp1) as (_ & Hpos & Hlt).
        repeat split; intros; lra.
      + specialize (Hlow Hp0). repeat split; intros; lra.
    - specialize (Hhigh Hp1). repeat split; intros; lra. }
  split; [|split; [|split; [exact Hsome|]]].
  - intros Hnone. subst limit. unfold render_activeLimit. by rewrite Hnone.
  - intros Hnone. subst active. unfold isScreenActive. by rewrite Hnone.
  - intros Hidle. case_bool_decide as Hlt.
    + destruct (lookup_lt_is_Some_2 scenes (index + limit) Hlt) as [sc Hsc].
      destruct (Hidle sc) as (p & Hp & Hp1); [by eapply list_elem_of_lookup_2|].
      destruct (Hsome sc p Hsc Hp) as (_ & a & Ha & _ & _ & Hzero & _).
      exists a. split; [done|]. apply Hzero. lra.
    + exists 1%Q. subst active. unfold isScreenActive.
      rewrite (proj2 (lookup_ge_None _ _)) by lia. done.
Qed.

(** ** render: the transition configuration *)


End CardStackFacts.

(* ================================================================= *)
(** * More of the component: lookups, invariants of reachable states,
      composition of the handlers *)



(** [scene.route.key === k] *)
Definition scene_has_key (k : string) (scene : Scene) : bool :=
  bool_decide (key (route scene) = k).

(** [getPreviousScene]: [getPreviousRoute] is the prop of that name and
    [scenes] is [this.state.scenes]. *)
Definition getPreviousScene (getPreviousRoute : Route → option Route)
    (scenes : list Scene) (route : Route) : option Scene :=
  match getPreviousRoute route with
  | Some previousRoute => List.find (scene_has_key (key previousRoute)) scenes
  | None => None
  end.

(** An interpolation over two points, as [getProgressFromGesture] builds. *)
Definition progress_node (gesture : nat) (a : Animated) : Prop :=
  ∃ x0 x1 y0 y1,
    a = AnimatedInterpolation (AnimatedValue gesture)
          {| inputRange := [x0; x1]; outputRange := [y0; y1];
             extrapolate := extend |}.

Definition optional_progress_node (gesture : option nat) (a : option Animated) : Prop :=
  match gesture, a with
  | Some g, Some a => progress_node g a
  | None, None => True
  | _, _ => False
  end.

(** What a scene holds agrees with what its memo records. *)
Definition scene_matches_memo (sc : Scene) : Prop :=
  route_id (route sc) = memo_route (__memo sc)
  ∧ desc_id (descriptor sc) = memo_descriptor (__memo sc)
  ∧ progress_node (memo_currentGesture (__memo sc)) (current (progress sc))
  ∧ optional_progress_node (memo_nextGesture (__memo sc)) (next (progress sc))
  ∧ optional_progress_node (memo_previousGesture (__memo sc))
      (previous (progress sc)).

Section CardStackMore.

Variable DefaultTransition ModalTransition : TransitionPreset.
Variable getDefaultHeaderHeight : Layout → Q → Q.

Local Abbreviation getDistanceFromOptions :=
  (getDistanceFromOptions DefaultTransition ModalTransition).
Local Abbreviation getProgressFromGesture :=
  (getProgressFromGesture DefaultTransition ModalTransition).
Local Abbreviation getHeaderHeights := (getHeaderHeights getDefaultHeaderHeight).
Local Abbreviation specHeaderHeight := (specHeaderHeight getDefaultHeaderHeight).
Local Abbreviation gestures_step := (gestures_step DefaultTransition ModalTransition).
Local Abbreviation scenes_callback := (scenes_callback DefaultTransition ModalTransition).
Local Abbreviation getDerivedStateFromProps :=
  (getDerivedStateFromProps DefaultTransition ModalTransition getDefaultHeaderHeight).
Local Abbreviation derive :=
  (derive DefaultTransition ModalTransition getDefaultHeaderHeight).
Local Abbreviation handleLayout := (handleLayout getDefaultHeaderHeight).
Local Abbreviation mount :=
  (mount DefaultTransition ModalTransition getDefaultHeaderHeight).
Local Abbreviation step := (step DefaultTransition ModalTransition getDefaultHeaderHeight).
Local Abbreviation run := (run DefaultTransition ModalTransition getDefaultHeaderHeight).
Local Abbreviation render_screen := (render_screen DefaultTransition ModalTransition).
Local Abbreviation render := (render DefaultTransition ModalTransition).
Local Abbreviation initialGestureValue :=
  (initialGestureValue DefaultTransition ModalTransition).

(** An event is faithful when a routes array that has the identity of the
    array in the state is that array (arrays are not mutated in place). *)
Definition faithful_event (c : Component) (e : Event) : Prop :=
  match e with
  | PropsChange props =>
      routes_id (routes props) = routes_id (state_routes (comp_state c)) →
      items (routes props) = items (state_routes (comp_state c))
  | _ => True
  end.

(** The components a mounted stack can be in: mounted with props whose
    routes array is not the array the constructor is about to create, then
    any faithful events. *)
Inductive reachable : Component → Prop :=
  | reachable_mount props window h c :
      routes_id (routes props) ≠ next_id h →
      mount props window h = Some c →
      reachable c
  | reachable_step c e c' :
      reachable c →
      faithful_event c e →
      step c e = Some c' →
      reachable c'.

(** The invariant of the state and heap of reachable components: one scene
    per route, made for that route and its trackers; one allocated tracker
    per route key, different keys with different trackers; a header height
    for every route key. *)
Record state_invariant (s : State) (h : Heap) : Prop := {
  inv_scenes_length :
    length (scenes s) = length (items (state_routes s));
  inv_gestures_keys :
    ∀ k, is_Some (gestures s !! k) ↔ k ∈ key <$> items (state_routes s);
  inv_gestures_allocated :
    ∀ k g, gestures s !! k = Some g →
           g < next_id h ∧ is_Some (values h !! g);
  inv_gestures_distinct :
    ∀ k k' g, gestures s !! k = Some g → gestures s !! k' = Some g → k = k';
  inv_layout_allocated :
    layout_id (layout s) < next_id h;
  inv_heights_keys :
    ∀ k, k ∈ key <$> items (state_routes s) → is_Some (headerHeights s !! k);
  inv_scenes :
    ∀ i sc, scenes s !! i = Some sc →
      scene_matches_memo sc
      ∧ scene_id sc < next_id h
      ∧ memo_layout (__memo sc) < next_id h
      ∧ ∃ r g,
          items (state_routes s) !! i = Some r
          ∧ gestures s !! key r = Some g
          ∧ memo_route (__memo sc) = route_id r
          ∧ memo_currentGesture (__memo sc) = g
          ∧ memo_nextGesture (__memo sc)
            = gesture_of (gestures s) (nextRoute_of (items (state_routes s)) i)
          ∧ memo_previousGesture (__memo sc)
            = gesture_of (gestures s)
                (previousRoute_of (items (state_routes s)) i);
}.

(** The invariant of reachable components: the state was derived from the
    props the component holds. *)
Definition invariant (c : Component) : Prop :=
  items (routes (comp_props c)) = items (state_routes (comp_state c))
  ∧ props_unchanged (comp_props c) (comp_state c) = true
  ∧ state_invariant (comp_state c) (comp_heap c).

(** ** The progress of a gesture, for every value of the tracker *)


(** ** render: the transitioning flag *)

Lemma findRange_transitioning (p : Q) :
  findRange p [0%Q; EPSILON; (1 - EPSILON)%Q; 1%Q]
  = if Qle_bool p EPSILON then 0
    else if Qle_bool p (1 - EPSILON) then 1 else 2.
Proof.
  unfold findRange. cbn [length findRange_loop].
  rewrite bool_decide_eq_true_2 by (cbn; lia). cbn [lookup list_lookup].
  destruct (Qle_bool p EPSILON); [done|].
  rewrite bool_decide_eq_true_2 by (cbn; lia). cbn [lookup list_lookup].
  destruct (Qle_bool p (1 - EPSILON)); [done|].
  by rewrite bool_decide_eq_false_2 by (cbn; lia).
Qed.

Lemma Qle_bool_false (x y : Q) : Qle_bool x y = false ↔ (y < x)%Q.
Proof.
  split.
  - intros H. apply Qnot_le_lt. intros Hle. apply Qle_bool_iff in Hle. congruence.
  - intros H. destruct (Qle_bool x y) eqn:E; [|done].
    apply Qle_bool_iff in E. lra.
Qed.

(** The interpolation behind [transitioning]: 0 up to 0, rising to 1 at
    [EPSILON], 1 up to [1 - EPSILON], falling to 0 at 1, and 0 from there. *)
Lemma transitioning_interpolation (p : Q) :
  ∃ t,
    interpolate {| inputRange := [0%Q; EPSILON; (1 - EPSILON)%Q; 1%Q];
                   outputRange := [0%Q; 1%Q; 1%Q; 0%Q];
                   extrapolate := clamp |} p = Some t
    ∧ ((p <= 0)%Q → (t == 0)%Q)
    ∧ ((0 < p)%Q → (p < EPSILON)%Q → (0 < t)%Q ∧ (t < 1)%Q)
    ∧ ((EPSILON <= p)%Q → (p <= 1 - EPSILON)%Q → (t == 1)%Q)
    ∧ ((1 - EPSILON < p)%Q → (p < 1)%Q → (0 < t)%Q ∧ (t < 1)%Q)
    ∧ ((1 <= p)%Q → (t == 0)%Q).
Proof.
  unfold interpolate. cbn [inputRange outputRange extrapolate].
  rewrite findRange_transitioning.
  destruct (Qle_bool p EPSILON) eqn:Hle1.
  - apply Qle_bool_iff in Hle1. cbn -[interpolate_segment EPSILON Qminus].
    eexists. split; [reflexivity|].
    unfold interpolate_segment.
    rewrite !andb_decide_false by done.
    rewrite !bool_decide_eq_true_2 by done. rewrite !andb_true_r.
    change (Qeq_bool 0 1) with false. change (Qeq_bool 0 EPSILON) with false.
    cbn [negb]. unfold EPSILON in *.
    destruct (Qlt_bool p 0) eqn:Hneg.
    + apply Qlt_bool_iff in Hneg.
      assert (Hlo : Qlt_bool 0.01 0 = false) by done. rewrite Hlo.
      split; [intros; field|]. repeat split; intros; lra.
    + apply Qlt_bool_false in Hneg.
      assert (Hlo : Qlt_bool 0.01 p = false) by (apply Qlt_bool_false; lra).
      rewrite Hlo.
      assert (Hval : ((p - 0) / (0.01 - 0) * (1 - 0) + 0 == 100 * p)%Q) by field.
      rewrite Hval. repeat split; intros; lra.
  - apply Qle_bool_false in Hle1.
    destruct (Qle_bool p (1 - EPSILON)) eqn:Hle2.
    + apply Qle_bool_iff in Hle2. cbn -[interpolate_segment EPSILON Qminus].
      eexists. split; [reflexivity|].
      unfold interpolate_segment.
      rewrite !andb_decide_false by done.
      change (Qeq_bool 1 1) with true. cbn [negb]. unfold EPSILON in *.
      repeat split; intros; lra.
    + apply Qle_bool_false in Hle2. cbn -[interpolate_segment EPSILON Qminus].
      eexists. split; [reflexivity|].
      unfold interpolate_segment.
      rewrite !andb_decide_false by done.
      rewrite !bool_decide_eq_true_2 by done. rewrite !andb_true_r.
      assert (Hlo : Qlt_bool p (1 - EPSILON) = false)
        by (apply Qlt_bool_false; lra).
      rewrite Hlo.
      change (Qeq_bool 1 0) with false. change (Qeq_bool (1 - EPSILON) 1) with false.
      cbn [negb]. unfold EPSILON in *.
      destruct (Qlt_bool 1 p) eqn:Hhi.
      * apply Qlt_bool_iff in Hhi.
        split; [intros; lra|]. split; [intros; lra|]. split; [intros; lra|].
        split; [intros; lra|]. intros _. field.
      * apply Qlt_bool_false in Hhi.
        assert (Hval : ((p - (1 - 0.01)) / (1 - (1 - 0.01)) * (0 - 1) + 1
                        == 100 * (1 - p))%Q) by field.
        rewrite Hval. repeat split; intros; lra.
Qed.

Ltac rational_cases :=
  repeat split; intros;
  first [ lra
        | match goal with H : _ ∨ _ |- _ => destruct H; lra end
        | left; lra
        | right; lra ].

(** X2: the transitioning flag of a scene is a number between 0 and 1; it
    is 0 exactly when the progress is at rest, at or below 0 or at or above
    1, and it is 1 exactly when the progress lies between 0.01 and 0.99. *)
Theorem transitioning_flag (vals : gmap nat Q) (scene : Scene) p :
  getValue vals (current (progress scene)) = Some p →
  ∃ t,
    getValue vals (transitioning scene) = Some t
    ∧ (0 <= t)%Q ∧ (t <= 1)%Q
    ∧ ((t == 0)%Q ↔ (p <= 0)%Q ∨ (1 <= p)%Q)
    ∧ ((t == 1)%Q ↔ (0.01 <= p)%Q ∧ (p <= 1 - 0.01)%Q).
Proof.
  intros Hp.
  destruct (transitioning_interpolation p)
    as (t & Ht & Hneg & Hrise & Hone & Hfall & Hdone).
  exists t. split.
  { unfold transitioning. cbn [getValue]. rewrite Hp. exact Ht. }
  unfold EPSILON in *.
  destruct (Qlt_le_dec 0 p) as [H0|H0]; [|specialize (Hneg H0); rational_cases].
  destruct (Qlt_le_dec p 0.01) as [H1|H1];
    [destruct (Hrise H0 H1); rational_cases|].
  destruct (Qlt_le_dec (1 - 0.01) p) as [H2|H2];
    [|specialize (Hone H1 H2); rational_cases].
  destruct (Qlt_le_dec p 1) as [H3|H3];
    [destruct (Hfall H2 H3); rational_cases|].
  specialize (Hdone H3). rational_cases.
Qed.

(** ** getPreviousScene *)

Lemma find_first {A} (f : A → bool) (l : list A) (x : A) :
  List.find f l = Some x →
  ∃ i, l !! i = Some x ∧ f x = true
       ∧ ∀ j y, j < i → l !! j = Some y → f y = false.
Proof.
  induction l as [|a l IH]; [done|]. cbn [List.find].
  destruct (f a) eqn:Hfa.
  - intros [= <-]. exists 0. split; [done|]. split; [done|]. lia.
  - intros Hfind. destruct (IH Hfind) as (i & Hi & Hfx & Hbefore).
    exists (S i). split; [done|]. split; [done|].
    intros [|j] y Hj Hy.
    + cbn in Hy. by injection Hy as <-.
    + cbn in Hy. apply (Hbefore j); [lia|done].
Qed.

Lemma find_nothing {A} (f : A → bool) (l : list A) :
  List.find f l = None ↔ ∀ x, x ∈ l → f x = false.
Proof.
  induction l as [|a l IH]; cbn [List.find].
  - split; [|done]. intros _ x Hx. by apply elem_of_nil in Hx.
  - destruct (f a) eqn:Hfa.
    + split; [done|]. intros H. specialize (H a). rewrite Hfa in H.
      discriminate H. apply elem_of_cons. by left.
    + rewrite IH. split.
      * intros H x [->|Hx]%elem_of_cons; [done|by apply H].
      * intros H x Hx. apply H, elem_of_cons. by right.
Qed.

(** X3: [getPreviousScene] returns the first scene whose route has the key
    of the previous route; it returns undefined exactly when there is no
    previous route or no scene has that key. *)
Theorem getPreviousScene_first_match
    (getPreviousRoute : Route → option Route) (scenes : list Scene) (r : Route) :
  (∀ sc, getPreviousScene getPreviousRoute scenes r = Some sc →
     ∃ previousRoute i,
       getPreviousRoute r = Some previousRoute
       ∧ scenes !! i = Some sc
       ∧ key (route sc) = key previousRoute
       ∧ ∀ j sc', j < i → scenes !! j = Some sc' →
                  key (route sc') ≠ key previousRoute)
  ∧ (getPreviousScene getPreviousRoute scenes r = None
     ↔ getPreviousRoute r = None
       ∨ ∃ previousRoute,
           getPreviousRoute r = Some previousRoute
           ∧ ∀ sc, sc ∈ scenes → key (route sc) ≠ key previousRoute).
Proof.
  unfold getPreviousScene. split.
  - intros sc Hsc. destruct (getPreviousRoute r) as [previousRoute|]; [|done].
    destruct (find_first _ _ _ Hsc) as (i & Hi & Hkey & Hbefore).
    exists previousRoute, i. split; [done|]. split; [done|].
    unfold scene_has_key in *. split; [by apply bool_decide_eq_true in Hkey|].
    intros j sc' Hj Hsc'. specialize (Hbefore j sc' Hj Hsc').
    by apply bool_decide_eq_false in Hbefore.
  - destruct (getPreviousRoute r) as [previousRoute|]; [|by split; [left|]].
    rewrite find_nothing. split.
    + intros H. right. exists previousRoute. split; [done|].
      intros sc Hsc. specialize (H sc Hsc).
      by apply bool_decide_eq_false in H.
    + intros [H|(p & [= <-] & H)]; [done|]. intros sc Hsc.
      by apply bool_decide_eq_false, H.
Qed.

(** ** Header heights that are stored *)

Lemma specHeaderHeight_stored insets descriptors layout (previous : gmap string Q) k n :
  previous !! k = Some n →
  specHeaderHeight insets descriptors layout previous k
  = default n (explicitHeight (options_of (descs descriptors !! k))).
Proof.
  intros Hprev. unfold specHeaderHeight. rewrite Hprev.
  by destruct (explicitHeight _).
Qed.

(** X4: with the same descriptors, recomputing over header heights that
    were already computed gives them back, for every route that was among
    the routes, whatever the new layout and insets: a default header height
    is computed once for a route and then kept. *)
Theorem stored_header_heights_persist
    routes routes' insets insets' descriptors layout layout'
    (previous : gmap string Q) r :
  r ∈ routes' →
  key r ∈ key <$> routes →
  getHeaderHeights routes' insets' descriptors layout'
    (getHeaderHeights routes insets descriptors layout previous) !! key r
  = getHeaderHeights routes insets descriptors layout previous !! key r.
Proof.
  intros Hr Hk.
  rewrite (getHeaderHeights_route getDefaultHeaderHeight routes') by done.
  rewrite (getHeaderHeights_lookup getDefaultHeaderHeight routes).
  rewrite bool_decide_eq_true_2 by done.
  erewrite specHeaderHeight_stored.
  2:{ rewrite (getHeaderHeights_lookup getDefaultHeaderHeight routes).
      by rewrite bool_decide_eq_true_2 by done. }
  f_equal. unfold specHeaderHeight.
  by destruct (explicitHeight _).
Qed.

(** X5: once a measured header height is recorded for a route, recording
    the same height again is a no-op; a later recomputation over routes
    that hold the route keeps the measured height unless the descriptor
    gives an explicit numeric height, and a recomputation over routes that
    do not hold the key drops the entry. *)
Theorem measured_header_height_persists r height state state' :
  handleHeaderLayout r height state = Some state' →
  handleHeaderLayout r height state' = None
  ∧ (∀ routes insets descriptors layout,
       key r ∈ key <$> routes →
       getHeaderHeights routes insets descriptors layout (headerHeights state')
         !! key r
       = Some (default height
                 (explicitHeight (options_of (descs descriptors !! key r)))))
  ∧ (∀ routes insets descriptors layout,
       key r ∉ key <$> routes →
       getHeaderHeights routes insets descriptors layout (headerHeights state')
         !! key r
       = None).
Proof.
  intros Hupdate.
  assert (Hstored : headerHeights state' !! key r = Some height).
  { unfold handleHeaderLayout, handleHeaderLayout_updater in Hupdate.
    destruct (headerHeights state !! key r) as [p|];
      [destruct (Qeq_bool p height)|]; try done;
      cbn in Hupdate; injection Hupdate as <-; cbn; apply lookup_insert_eq. }
  split; [|split].
  - unfold handleHeaderLayout, handleHeaderLayout_updater. rewrite Hstored.
    assert (Heq : Qeq_bool height height = true) by (apply Qeq_bool_iff; reflexivity).
    by rewrite Heq.
  - intros routes insets descriptors layout Hk.
    rewrite (getHeaderHeights_lookup getDefaultHeaderHeight).
    rewrite bool_decide_eq_true_2 by done.
    by rewrite (specHeaderHeight_stored _ _ _ _ _ _ Hstored).
  - intros routes insets descriptors layout Hk.
    rewrite (getHeaderHeights_lookup getDefaultHeaderHeight).
    by rewrite bool_decide_eq_false_2 by done.
Qed.

(** ** What a derivation does to trackers and scenes *)

Lemma derived_gestures_origin props state h d h' :
  getDerivedStateFromProps props state h = Some (Some d, h') →
  (∀ k, is_Some (derived_gestures d !! k) ↔ k ∈ key <$> items (routes props))
  ∧ (∀ k g, derived_gestures d !! k = Some g →
            gestures state !! k = Some g
            ∨ (gestures state !! k = None ∧ next_id h ≤ g < next_id h'))
  ∧ (∀ loc, loc < next_id h → values h' !! loc = values h !! loc)
  ∧ next_id h ≤ next_id h'.
Proof.
  intros Hd.
  destruct (derived_gestures_spec _ _ _ _ _ _ _ _ Hd) as (h1 & Hfold & Hvals & Hnext).
  destruct (gestures_fold _ _ _ _ _ _ _ _ _ Hfold)
    as (Hn & Hv & Hout & Hold & Hnew).
  assert (Hkeys : ∀ k, is_Some (derived_gestures d !! k)
                       ↔ k ∈ key <$> items (routes props)).
  { intros k. split.
    - intros Hsome. destruct (decide (k ∈ key <$> items (routes props)));
        [done|]. rewrite Hout, lookup_empty in Hsome by done. by destruct Hsome.
    - intros Hk. by eapply gestures_fold_is_Some. }
  split; [done|]. split; [|split; [|lia]].
  - intros k g Hg.
    assert (Hk : k ∈ key <$> items (routes props)) by (apply Hkeys; eauto).
    destruct (gestures state !! k) as [g0|] eqn:Hstate.
    + left. rewrite (Hold k g0 Hk Hstate) in Hg. congruence.
    + right. split; [done|].
      destruct (Hnew k Hk Hstate) as (g' & Hg' & Hrange & _).
      assert (g' = g) as -> by congruence. lia.
  - intros loc Hloc. rewrite Hvals. by apply Hv.
Qed.

(** X6: after a derivation the trackers are those of the keys of the props'
    routes and no others: the tracker of a key that left the routes is
    dropped, a kept tracker is the state's, a new one is a location the
    heap had not allocated; and no cell the heap held before is changed. *)
Theorem derivation_trackers props state h d h' :
  getDerivedStateFromProps props state h = Some (Some d, h') →
  (∀ k, is_Some (derived_gestures d !! k) ↔ k ∈ key <$> items (routes props))
  ∧ (∀ k g, derived_gestures d !! k = Some g →
            gestures state !! k = Some g
            ∨ (gestures state !! k = None ∧ next_id h ≤ g < next_id h'))
  ∧ (∀ loc, loc < next_id h → values h' !! loc = values h !! loc)
  ∧ next_id h ≤ next_id h'.
Proof. apply derived_gestures_origin. Qed.

(** The callback, when it does not return the old scene. *)
Lemma scenes_callback_built props state gestures self index r h sc h' :
  scenes_callback props state gestures self index r h = Some (sc, h') →
  ∃ g, gestures !! key r = Some g
     ∧ ((∃ oldScene, scenes state !! index = Some oldScene
                     ∧ __memo oldScene
                       = scene_memo props state gestures self index r g
                     ∧ sc = oldScene)
        ∨ ((∀ oldScene, scenes state !! index = Some oldScene →
              __memo oldScene ≠ scene_memo props state gestures self index r g)
           ∧ scene_id sc = next_id h
           ∧ route sc = r
           ∧ descriptor sc = scene_descriptor props state index r
           ∧ __memo sc = scene_memo props state gestures self index r g
           ∧ current (progress sc)
             = getProgressFromGesture (mode props) (AnimatedValue g)
                 (layout state) (Some (scene_descriptor props state index r))
           ∧ next (progress sc)
             = (λ g', getProgressFromGesture (mode props) (AnimatedValue g')
                        (layout state)
                        (scene_nextDescriptor props state self index))
               <$> gesture_of gestures (nextRoute_of self index)
           ∧ previous (progress sc)
             = (λ g', getProgressFromGesture (mode props) (AnimatedValue g')
                        (layout state)
                        (scene_previousDescriptor props state self index))
               <$> gesture_of gestures (previousRoute_of self index))).
Proof.
  unfold scenes_callback. intros H.
  destruct (gestures !! key r) as [g|] eqn:Hg; [|done].
  cbn in H. exists g. split; [done|].
  destruct (scenes state !! index) as [oldScene|] eqn:Hold.
  - case_bool_decide as Hm; injection H as <- <-.
    + left. by exists oldScene.
    + right. split; [|done]. intros ? [= <-]. done.
  - injection H as <- <-. right. done.
Qed.

(** X7: at an index with no old scene, or whose old scene has a memo that
    differs in any of the eight dependencies, a derivation builds a new
    scene object: it has an identity the heap had not allocated, holds the
    route and the resolved descriptor, and its progress values are built
    from the current mode, layout, descriptors and trackers. *)
Theorem changed_dependency_rebuilds_scene props state h d h' index r g :
  getDerivedStateFromProps props state h = Some (Some d, h') →
  items (routes props) !! index = Some r →
  derived_gestures d !! key r = Some g →
  (∀ oldScene, scenes state !! index = Some oldScene →
     __memo oldScene
     ≠ scene_memo props state (derived_gestures d) (items (routes props))
         index r g) →
  ∃ sc,
    derived_scenes d !! index = Some sc
    ∧ next_id h ≤ scene_id sc < next_id h'
    ∧ (∀ oldScene, oldScene ∈ scenes state → scene_id oldScene < next_id h →
                   sc ≠ oldScene)
    ∧ route sc = r
    ∧ descriptor sc = scene_descriptor props state index r
    ∧ __memo sc
      = scene_memo props state (derived_gestures d) (items (routes props))
          index r g
    ∧ current (progress sc)
      = getProgressFromGesture (mode props) (AnimatedValue g) (layout state)
          (Some (descriptor sc))
    ∧ (is_Some (next (progress sc)) ↔ S index < length (items (routes props)))
    ∧ (is_Some (previous (progress sc)) ↔ 0 < index).
Proof.
  intros Hd Hr Hg Hne.
  destruct (getDerivedStateFromProps_update _ _ _ _ _ _ _ _ Hd)
    as (h1 & _ & Hfold & Hmap & _).
  destruct (gestures_fold _ _ _ _ _ _ _ _ _ Hfold) as (Hn & _).
  destruct (scenes_map _ _ _ _ _ _ _ _ _ _ _ Hmap) as (Hlen & -> & Hlook).
  destruct (Hlook index r Hr) as (sc & Hsc & Hcall). cbn in Hcall.
  pose proof (lookup_lt_Some _ _ _ Hr) as Hindex.
  destruct (scenes_callback_built _ _ _ _ _ _ _ _ _ Hcall)
    as (g' & Hg' & [(old & Hold & Hm & _)|
                    (_ & Hid & Hroute & Hdesc & Hmemo & Hcur & Hnext & Hprev)]).
  { assert (g' = g) as -> by congruence. by destruct (Hne old Hold). }
  assert (g' = g) as -> by congruence.
  assert (Hall : ∀ o : option Route,
            (∀ r', o = Some r' → r' ∈ items (routes props)) →
            is_Some (gesture_of (derived_gestures d) o) ↔ is_Some o).
  { intros [r'|] Hin; cbn; [|done]. split; [eauto|]. intros _.
    eapply gestures_fold_is_Some; [done|].
    by apply list_elem_of_fmap_2, Hin. }
  exists sc. split; [done|]. split; [rewrite Hid; unfold alloc; cbn; lia|].
  split.
  { intros old _ Hlt ->. rewrite Hid in Hlt. unfold alloc in Hlt. cbn in Hlt. lia. }
  split; [done|]. split; [done|]. split; [done|].
  split; [by rewrite Hcur, Hdesc|]. split.
  - rewrite Hnext, fmap_is_Some, Hall by apply nextRoute_of_elem.
    unfold nextRoute_of. by rewrite lookup_lt_is_Some.
  - rewrite Hprev, fmap_is_Some, Hall by apply previousRoute_of_elem.
    unfold previousRoute_of. destruct index as [|i]; cbn.
    + split; [by intros []|lia].
    + rewrite lookup_lt_is_Some. lia.
Qed.

(** X8: the descriptor of a derived scene is, by identity, the first that
    exists of: the descriptor of the route's key in the props, the one in
    the previous state's descriptors, the descriptor of the old scene at
    the index, the frozen fallback; so a scene never lacks a descriptor. *)
Theorem scene_descriptor_priority props state h d h' index r sc :
  getDerivedStateFromProps props state h = Some (Some d, h') →
  items (routes props) !! index = Some r →
  derived_scenes d !! index = Some sc →
  (∀ oldScene, scenes state !! index = Some oldScene →
               desc_id (descriptor oldScene) = memo_descriptor (__memo oldScene)) →
  desc_id (descriptor sc)
  = desc_id
      (match descs (descriptors props) !! key r with
       | Some descriptor => descriptor
       | None =>
           match descs (state_descriptors state) !! key r with
           | Some descriptor => descriptor
           | None =>
               match scenes state !! index with
               | Some oldScene => descriptor oldScene
               | None => FALLBACK_DESCRIPTOR
               end
           end
       end).
Proof.
  intros Hd Hr Hsc Hold.
  destruct (derived_scenes_spec _ _ _ _ _ _ _ _ Hd) as (_ & Hlook).
  destruct (Hlook index r Hr) as (sc' & g & hi & Hsc' & Hg & Hcall & Hmemo).
  assert (sc' = sc) as -> by congruence.
  assert (Hchain : scene_descriptor props state index r
                   = match descs (descriptors props) !! key r with
                     | Some descriptor => descriptor
                     | None =>
                         match descs (state_descriptors state) !! key r with
                         | Some descriptor => descriptor
                         | None =>
                             match scenes state !! index with
                             | Some oldScene => descriptor oldScene
                             | None => FALLBACK_DESCRIPTOR
                             end
                         end
                     end).
  { unfold scene_descriptor, resolvedDescriptor, or_else.
    destruct (descs (descriptors props) !! key r); [done|].
    by destruct (descs (state_descriptors state) !! key r). }
  rewrite <- Hchain.
  destruct (scenes_callback_built _ _ _ _ _ _ _ _ _ Hcall)
    as (g' & Hg' & [(old & Hold' & Hm & ->)|(_ & _ & _ & Hdesc & _)]).
  - rewrite (Hold old Hold'), Hm. done.
  - by rewrite Hdesc.
Qed.

(** ** The invariant of reachable components *)

Lemma state_invariant_alloc s h n :
  state_invariant s h → state_invariant s (alloc h n).
Proof.
  intros [Hlen Hkeys Halloc Hdist Hlay Hheights Hscenes].
  split; try done; unfold alloc; cbn.
  - intros k g Hg. destruct (Halloc k g Hg). split; [lia|done].
  - lia.
  - intros i sc Hsc. destruct (Hscenes i sc Hsc) as (Hm & Hid & Hl & Hr).
    split; [done|]. split; [lia|]. split; [lia|done].
Qed.

Lemma state_invariant_constructor props window h :
  state_invariant (constructor props window h).1 (constructor props window h).2.
Proof.
  split; cbn; try done.
  - intros k. rewrite lookup_empty. split; [by intros []|].
    by intros ?%elem_of_nil.
  - lia.
  - intros k ?%elem_of_nil. done.
Qed.

(** Through the reduction over the routes, different keys get different
    trackers. *)
Lemma gestures_fold_distinct props state h0 l :
  (∀ k g, gestures state !! k = Some g → g < next_id h0) →
  (∀ k k' g, gestures state !! k = Some g → gestures state !! k' = Some g →
             k = k') →
  ∀ acc h acc' h',
    fold_left (gestures_step props state) l (acc, h) = (acc', h') →
    next_id h0 ≤ next_id h →
    (∀ k g, acc !! k = Some g →
            gestures state !! k = Some g ∨ next_id h0 ≤ g < next_id h) →
    (∀ k k' g, acc !! k = Some g → acc !! k' = Some g → k = k') →
    ∀ k k' g, acc' !! k = Some g → acc' !! k' = Some g → k = k'.
Proof.
  intros Hstate_alloc Hstate_inj.
  induction l as [|x l IH]; intros acc h acc' h' Hfold Hh Hacc Hinj.
  - cbn in Hfold. by injection Hfold as <- <-.
  - cbn [fold_left] in Hfold.
    destruct (gestures state !! key x) as [g0|] eqn:Hg.
    + rewrite (gestures_step_old _ _ _ _ _ _ _ Hg) in Hfold. cbn in Hfold.
      apply (IH _ _ _ _ Hfold Hh).
      * intros k g. destruct (decide (k = key x)) as [->|Hne].
        -- rewrite lookup_insert_eq. intros [= <-]. by left.
        -- rewrite lookup_insert_ne by done. apply Hacc.
      * assert (Hother : ∀ k, k ≠ key x → acc !! k = Some g0 → False).
        { intros k Hne Hk. destruct (Hacc k g0 Hk) as [Hs|Hs].
          - apply Hne. by eapply Hstate_inj.
          - specialize (Hstate_alloc _ _ Hg). lia. }
        intros k k' g.
        destruct (decide (k = key x)) as [->|Hne];
          destruct (decide (k' = key x)) as [->|Hne']; try done;
          rewrite ?lookup_insert_eq, ?lookup_insert_ne by done.
        -- intros [= <-] Hk'. by destruct (Hother k').
        -- intros Hk [= <-]. by destruct (Hother k).
        -- apply Hinj.
    + rewrite (gestures_step_new _ _ _ _ _ _ Hg) in Hfold. cbn in Hfold.
      apply (IH _ _ _ _ Hfold); cbn; [lia| |].
      * intros k g. destruct (decide (k = key x)) as [->|Hne].
        -- rewrite lookup_insert_eq. intros [= <-]. right. lia.
        -- rewrite lookup_insert_ne by done. intros Hk.
           destruct (Hacc k g Hk) as [?|?]; [by left|right; lia].
      * assert (Hother : ∀ k, acc !! k = Some (next_id h) → False).
        { intros k Hk. destruct (Hacc k _ Hk) as [Hs|Hs]; [|lia].
          specialize (Hstate_alloc _ _ Hs). lia. }
        intros k k' g.
        destruct (decide (k = key x)) as [->|Hne];
          destruct (decide (k' = key x)) as [->|Hne']; try done;
          rewrite ?lookup_insert_eq, ?lookup_insert_ne by done.
        -- intros [= <-] Hk'. by destruct (Hother k').
        -- intros Hk [= <-]. by destruct (Hother k).
        -- apply Hinj.
Qed.

(** The progress values the callback builds are interpolations over two
    points of the tracker they are given. *)
Lemma getProgressFromGesture_node mode g layout descriptor :
  progress_node g (getProgressFromGesture mode (AnimatedValue g) layout descriptor).
Proof.
  destruct (getProgressFromGesture_cases DefaultTransition ModalTransition
              mode (AnimatedValue g) layout descriptor) as [[_ ->]|[_ ->]];
    unfold progress_node; eauto.
Qed.

Lemma optional_progress_node_fmap mode layout descriptor (og : option nat) :
  optional_progress_node og
    ((λ g, getProgressFromGesture mode (AnimatedValue g) layout descriptor) <$> og).
Proof. destruct og as [g|]; cbn; [apply getProgressFromGesture_node|done]. Qed.

Lemma state_invariant_derive props state h d h' :
  state_invariant state h →
  getDerivedStateFromProps props state h = Some (Some d, h') →
  state_invariant (merge_derived state (Some d)) h'.
Proof.
  intros [Hlen Hkeys Halloc Hdist Hlay Hheights Hscenes] Hd.
  destruct (getDerivedStateFromProps_update _ _ _ _ _ _ _ _ Hd)
    as (h1 & _ & Hfold & Hmap & Hroutes & _ & Hhh).
  destruct (derived_gestures_origin _ _ _ _ _ Hd) as (Hdkeys & Horigin & Hvals & Hnext).
  destruct (gestures_fold _ _ _ _ _ _ _ _ _ Hfold) as (Hn1 & _ & _ & _ & Hnew).
  destruct (scenes_map _ _ _ _ _ _ _ _ _ _ _ Hmap) as (Hslen & Hh' & Hlook).
  assert (Hvals1 : values h' = values h1) by (rewrite Hh'; done).
  split; cbn [merge_derived state_routes scenes gestures layout headerHeights];
    rewrite ?Hroutes.
  - done.
  - done.
  - intros k g Hg. destruct (Horigin k g Hg) as [Hs|[Hs Hrange]].
    + destruct (Halloc k g Hs) as [Hlt Hval]. split; [lia|].
      by rewrite Hvals by done.
    + split; [lia|].
      destruct (Hnew k) as (g' & Hg' & _ & Hval); [by apply Hdkeys|done|].
      assert (g' = g) as -> by congruence. by rewrite Hvals1, Hval.
  - eapply (gestures_fold_distinct props state h); [| |exact Hfold|..].
    + intros k g Hg. by destruct (Halloc k g Hg).
    + exact Hdist.
    + done.
    + intros k g. by rewrite lookup_empty.
    + intros k k' g. by rewrite lookup_empty.
  - lia.
  - intros k Hk. rewrite Hhh, (getHeaderHeights_lookup getDefaultHeaderHeight).
    by rewrite bool_decide_eq_true_2 by done.
  - intros i sc Hsc.
    assert (Hi : i < length (items (routes props))).
    { rewrite <- Hslen. by eapply lookup_lt_Some. }
    destruct (lookup_lt_is_Some_2 _ _ Hi) as [r Hr].
    destruct (Hlook i r Hr) as (sc' & Hsc' & Hcall). cbn in Hcall.
    assert (sc' = sc) as -> by congruence.
    destruct (scenes_callback_inv _ _ _ _ _ _ _ _ _ _ _ Hcall)
      as (g & Hg & _ & Hmemo & _).
    destruct (scenes_callback_built _ _ _ _ _ _ _ _ _ Hcall)
      as (g' & Hg' & Hcases).
    assert (g' = g) as -> by congruence.
    assert (Hh1 : next_id h1 + i < next_id h').
    { rewrite Hh'. unfold alloc. cbn. lia. }
    split; [|split; [|split]].
    + destruct Hcases as [(old & Hold & _ & ->)|
                          (_ & _ & Hroute & Hdesc & _ & Hcur & Hnx & Hpv)].
      * by destruct (Hscenes i old Hold).
      * unfold scene_matches_memo. rewrite Hmemo. cbn.
        rewrite Hroute, Hdesc, Hcur, Hnx, Hpv.
        split; [done|]. split; [done|].
        split; [apply getProgressFromGesture_node|].
        split; apply optional_progress_node_fmap.
    + destruct Hcases as [(old & Hold & _ & ->)|(_ & Hid & _)].
      * destruct (Hscenes i old Hold) as (_ & Hlt & _). lia.
      * rewrite Hid. unfold alloc. cbn. lia.
    + rewrite Hmemo. cbn. lia.
    + exists r, g. rewrite Hmemo. done.
Qed.

Lemma state_invariant_handleLayout e props state h state' h' :
  state_invariant state h →
  items (routes props) = items (state_routes state) →
  handleLayout e props state h = (Some state', h') →
  state_invariant state' h'.
Proof.
  intros Hinv Hitems. unfold handleLayout. cbn.
  destruct (_ && _); [done|]. intros [= <- <-].
  destruct (state_invariant_alloc _ _ 1 Hinv)
    as [Hlen Hkeys Halloc Hdist Hlay Hheights Hscenes].
  assert (Hh : {| next_id := S (next_id h); values := values h |} = alloc h 1).
  { unfold alloc. f_equal. lia. }
  rewrite Hh. split; cbn; try done.
  - lia.
  - intros k Hk. rewrite (getHeaderHeights_lookup getDefaultHeaderHeight), Hitems.
    by rewrite bool_decide_eq_true_2 by done.
Qed.

Lemma handleLayout_null e props state h h' :
  handleLayout e props state h = (None, h') → h' = alloc h 1.
Proof.
  unfold handleLayout. cbn. destruct (_ && _); [|done]. intros [= <-].
  unfold alloc. f_equal. lia.
Qed.

Lemma handleLayout_fields e props state h state' h' :
  handleLayout e props state h = (Some state', h') →
  state_routes state' = state_routes state
  ∧ state_descriptors state' = state_descriptors state
  ∧ scenes state' = scenes state
  ∧ gestures state' = gestures state
  ∧ h' = alloc h 1
  ∧ layout_id (layout state') = next_id h
  ∧ layout_value (layout state') = {| width := width e; height := height e |}
  ∧ headerHeights state'
    = getHeaderHeights (items (routes props)) (insets props)
        (state_descriptors state) (layout state') (headerHeights state)
  ∧ ¬ ((height e == height (layout state))%Q ∧ (width e == width (layout state))%Q).
Proof.
  unfold handleLayout. cbn.
  destruct (Qeq_bool (height e) _) eqn:Hh;
    destruct (Qeq_bool (width e) _) eqn:Hw; cbn; try done;
    intros [= <- <-]; cbn; repeat split; try done;
    try (unfold alloc; f_equal; lia);
    intros [H1 H2]; apply Qeq_bool_iff in H1, H2; congruence.
Qed.

Lemma state_invariant_handleHeaderLayout r height state h state' :
  state_invariant state h →
  handleHeaderLayout r height state = Some state' →
  state_invariant state' h.
Proof.
  intros [Hlen Hkeys Halloc Hdist Hlay Hheights Hscenes].
  unfold handleHeaderLayout.
  destruct (handleHeaderLayout_updater r height (headerHeights state))
    as [hh|] eqn:Hupd; [|done].
  cbn. intros [= <-]. split; cbn; try done.
  intros k Hk. specialize (Hheights k Hk).
  unfold handleHeaderLayout_updater in Hupd.
  assert (hh = <[key r := height]> (headerHeights state)) as ->.
  { destruct (headerHeights state !! key r) as [p|];
      [destruct (Qeq_bool p height)|]; congruence. }
  destruct (decide (k = key r)) as [->|Hne].
  - rewrite lookup_insert_eq. eauto.
  - by rewrite lookup_insert_ne.
Qed.

Lemma props_unchanged_after_derive props state h state' h' :
  derive props (state, h) = Some (state', h') →
  props_unchanged props state' = true.
Proof.
  intros Hderive.
  destruct (derive_inv _ _ _ _ _ _ _ _ Hderive) as [(-> & _ & H)|(d & Hd & ->)];
    [done|].
  destruct (getDerivedStateFromProps_update _ _ _ _ _ _ _ _ Hd)
    as (_ & _ & _ & _ & Hroutes & Hdescs & _).
  unfold props_unchanged. cbn. rewrite Hroutes, Hdescs.
  by rewrite !bool_decide_eq_true_2.
Qed.

Lemma derive_unchanged props state h :
  props_unchanged props state = true →
  derive props (state, h) = Some (state, h).
Proof.
  intros H. unfold derive. cbn.
  by rewrite (getDerivedStateFromProps_null _ _ _ _ _ _ H).
Qed.

Lemma invariant_mount props window h c :
  routes_id (routes props) ≠ next_id h →
  mount props window h = Some c →
  invariant c
  ∧ comp_props c = props
  ∧ ∃ d, getDerivedStateFromProps props (constructor props window h).1
           (constructor props window h).2
         = Some (Some d, comp_heap c)
       ∧ comp_state c = merge_derived (constructor props window h).1 (Some d).
Proof.
  intros Hfresh Hmount. unfold mount in Hmount.
  pose proof (state_invariant_constructor props window h) as Hinv0.
  assert (Hid : routes_id (state_routes (constructor props window h).1)
                = next_id h) by done.
  destruct (constructor props window h) as [s0 h0]. cbn [fst snd] in *.
  destruct (derive props (s0, h0)) as [[s h1]|] eqn:Hderive; [|done].
  cbn in Hmount. injection Hmount as <-. cbn [comp_props comp_state comp_heap].
  destruct (derive_inv _ _ _ _ _ _ _ _ Hderive)
    as [(_ & _ & Hnull)|(d & Hd & ->)].
  { unfold props_unchanged in Hnull. rewrite Hid in Hnull.
    rewrite bool_decide_eq_false_2 in Hnull by done. done. }
  destruct (getDerivedStateFromProps_update _ _ _ _ _ _ _ _ Hd)
    as (_ & _ & _ & _ & Hroutes & _).
  split; [|split; [done|by exists d]].
  split; [cbn; by rewrite Hroutes|]. split.
  - by eapply props_unchanged_after_derive.
  - cbn. by eapply state_invariant_derive.
Qed.

Lemma props_unchanged_same_ids props state state' :
  state_routes state' = state_routes state →
  state_descriptors state' = state_descriptors state →
  props_unchanged props state = true →
  props_unchanged props state' = true.
Proof. unfold props_unchanged. by intros -> ->. Qed.

Lemma invariant_step c e c' :
  invariant c → faithful_event c e → step c e = Some c' → invariant c'.
Proof.
  intros (Hitems & Hsame & Hinv) Hfaithful Hstep.
  destruct e as [props|e|r height]; unfold step in Hstep.
  - destruct (derive props _) as [[s h]|] eqn:Hderive; [|done].
    cbn in Hstep. injection Hstep as <-.
    pose proof (props_unchanged_after_derive _ _ _ _ _ Hderive) as Hsame'.
    destruct (derive_inv _ _ _ _ _ _ _ _ Hderive)
      as [(-> & -> & Hnull)|(d & Hd & ->)].
    + split; [|done]. cbn. apply Hfaithful.
      unfold props_unchanged in Hnull.
      apply andb_true_iff in Hnull as [H _]. by apply bool_decide_eq_true in H.
    + destruct (getDerivedStateFromProps_update _ _ _ _ _ _ _ _ Hd)
        as (_ & _ & _ & _ & Hroutes & _).
      split; [cbn; by rewrite Hroutes|]. split; [done|].
      cbn. by eapply state_invariant_derive.
  - destruct (handleLayout e _ _ _) as [[s|] h] eqn:Hlayout.
    + destruct (handleLayout_fields _ _ _ _ _ _ Hlayout)
        as (Hr & Hd & _).
      assert (Hsame1 : props_unchanged (comp_props c) s = true)
        by by eapply props_unchanged_same_ids.
      rewrite (derive_unchanged _ _ _ Hsame1) in Hstep. cbn in Hstep.
      injection Hstep as <-. split; [cbn; by rewrite Hr|]. split; [done|].
      cbn. by eapply state_invariant_handleLayout.
    + injection Hstep as <-. split; [done|]. split; [done|]. cbn.
      rewrite (handleLayout_null _ _ _ _ _ Hlayout).
      by apply state_invariant_alloc.
  - destruct (handleHeaderLayout r height _) as [s|] eqn:Hheader.
    + assert (Hfields : state_routes s = state_routes (comp_state c)
                        ∧ state_descriptors s = state_descriptors (comp_state c)).
      { unfold handleHeaderLayout in Hheader.
        destruct (handleHeaderLayout_updater _ _ _); [|done].
        cbn in Hheader. by injection Hheader as <-. }
      destruct Hfields as [Hr Hd].
      assert (Hsame1 : props_unchanged (comp_props c) s = true)
        by by eapply props_unchanged_same_ids.
      rewrite (derive_unchanged _ _ _ Hsame1) in Hstep. cbn in Hstep.
      injection Hstep as <-. split; [cbn; by rewrite Hr|]. split; [done|].
      cbn. by eapply state_invariant_handleHeaderLayout.
    + by injection Hstep as <-.
Qed.

Lemma reachable_invariant c : reachable c → invariant c.
Proof.
  induction 1 as [props window h c Hfresh Hmount|c e c' _ IH Hfaithful Hstep].
  - by destruct (invariant_mount _ _ _ _ Hfresh Hmount).
  - by eapply invariant_step.
Qed.

(** ** What holds in every reachable component *)

(** X9: in every reachable component each route of the props has exactly
    one gesture tracker and no other key has one; the tracker is allocated
    in the heap and holds a number; different keys have different
    trackers; and each route has a header height. *)
Theorem reachable_trackers_and_heights c :
  reachable c →
  let state := comp_state c in
  (∀ k, is_Some (gestures state !! k)
        ↔ k ∈ key <$> items (routes (comp_props c)))
  ∧ (∀ k g, gestures state !! k = Some g →
            g < next_id (comp_heap c)
            ∧ is_Some (values (comp_heap c) !! g))
  ∧ (∀ k k' g, gestures state !! k = Some g → gestures state !! k' = Some g →
               k = k')
  ∧ (∀ r, r ∈ items (routes (comp_props c)) →
          is_Some (headerHeights state !! key r)).
Proof.
  intros Hreach.
  destruct (reachable_invariant c Hreach) as (Hitems & _ & Hinv).
  destruct Hinv as [Hlen Hkeys Halloc Hdist Hlay Hheights Hscenes].
  cbn. rewrite Hitems. split; [done|]. split; [done|]. split; [done|].
  intros r Hr. by apply Hheights, list_elem_of_fmap_2.
Qed.

Lemma progress_node_value (vals : gmap nat Q) g a :
  progress_node g a → is_Some (vals !! g) → is_Some (getValue vals a).
Proof.
  intros (x0 & x1 & y0 & y1 & ->) [v Hv]. cbn [getValue]. rewrite Hv.
  cbn. unfold interpolate. cbn [inputRange outputRange extrapolate].
  rewrite findRange_two. cbn. eauto.
Qed.

(** X10: in every reachable component the scenes are aligned with the
    routes of the props: at the index of every route there is a scene of
    that route (by identity) whose current progress reads the tracker of
    the route's key and has a value; the scene has a next progress exactly
    when it is not the last and a previous progress exactly when it is not
    the first, and those have values too. *)
Theorem reachable_scenes_aligned c index r :
  reachable c →
  items (routes (comp_props c)) !! index = Some r →
  ∃ sc g,
    scenes (comp_state c) !! index = Some sc
    ∧ route_id (route sc) = route_id r
    ∧ gestures (comp_state c) !! key r = Some g
    ∧ progress_node g (current (progress sc))
    ∧ is_Some (getValue (values (comp_heap c)) (current (progress sc)))
    ∧ (is_Some (next (progress sc))
       ↔ S index < length (items (routes (comp_props c))))
    ∧ (is_Some (previous (progress sc)) ↔ 0 < index)
    ∧ (∀ a, next (progress sc) = Some a →
            is_Some (getValue (values (comp_heap c)) a))
    ∧ (∀ a, previous (progress sc) = Some a →
            is_Some (getValue (values (comp_heap c)) a)).
Proof.
  intros Hreach Hr.
  destruct (reachable_invariant c Hreach) as (Hitems & _ & Hinv).
  destruct Hinv as [Hlen Hkeys Halloc Hdist Hlay Hheights Hscenes].
  rewrite Hitems in *.
  assert (Hi : index < length (scenes (comp_state c))).
  { rewrite Hlen. by eapply lookup_lt_Some. }
  destruct (lookup_lt_is_Some_2 _ _ Hi) as [sc Hsc].
  destruct (Hscenes index sc Hsc)
    as ((Hroute & _ & Hcur & Hnx & Hpv) & _ & _ &
        r' & g & Hr' & Hg & Hmr & Hmg & Hmn & Hmp).
  assert (r' = r) as -> by congruence.
  rewrite Hmg in Hcur. rewrite Hmn in Hnx. rewrite Hmp in Hpv.
  assert (Hneighbour : ∀ (o : option Route) (oa : option Animated),
            (∀ r', o = Some r' → r' ∈ items (state_routes (comp_state c))) →
            optional_progress_node (gesture_of (gestures (comp_state c)) o) oa →
            (is_Some oa ↔ is_Some o)
            ∧ ∀ a, oa = Some a → is_Some (getValue (values (comp_heap c)) a)).
  { intros [r1|] oa Hin Hnode; cbn in Hnode.
    - destruct (proj2 (Hkeys (key r1))) as [g1 Hg1];
        [by apply list_elem_of_fmap_2, Hin|].
      rewrite Hg1 in Hnode. destruct oa as [a|]; [|done].
      split; [by split; eauto|]. intros a' [= <-].
      eapply progress_node_value; [done|]. by destruct (Halloc _ _ Hg1).
    - destruct oa; [done|]. split; [|done]. by split; intros []. }
  destruct (Hneighbour _ _ (nextRoute_of_elem _ index) Hnx) as [Hn1 Hn2].
  destruct (Hneighbour _ _ (previousRoute_of_elem _ index) Hpv) as [Hp1 Hp2].
  exists sc, g. split; [done|]. split; [congruence|]. split; [done|].
  split; [done|]. split.
  { eapply progress_node_value; [done|]. by destruct (Halloc _ _ Hg). }
  split; [|split; [|done]].
  - rewrite Hn1. unfold nextRoute_of. by rewrite lookup_lt_is_Some.
  - rewrite Hp1. unfold previousRoute_of. destruct index as [|i]; cbn.
    + split; [by intros []|lia].
    + rewrite lookup_lt_is_Some.
      apply lookup_lt_Some in Hr. lia.
Qed.

Lemma mount_total props window h : is_Some (mount props window h).
Proof.
  unfold mount.
  destruct (constructor props window h) as [s0 h0].
  destruct (derive_total DefaultTransition ModalTransition getDefaultHeaderHeight
              props s0 h0) as [[s h1] ->].
  done.
Qed.

(** ** render *)

Lemma render_screen_is_Some props state index r :
  is_Some (render_screen props state index r) ↔ index < length (scenes state).
Proof.
  unfold render_screen. rewrite <- lookup_lt_is_Some.
  destruct (scenes state !! index); cbn; split; intros [? ?]; eauto; done.
Qed.

Lemma render_is_Some props state :
  is_Some (render props state)
  ↔ length (items (routes props)) ≤ length (scenes state).
Proof.
  unfold render. rewrite mapM_is_Some, Forall_lookup. split.
  - intros H.
    destruct (decide (length (items (routes props)) ≤ length (scenes state)))
      as [|Hgt]; [done|].
    destruct (lookup_lt_is_Some_2 (items (routes props)) (length (scenes state)))
      as [r Hr]; [lia|].
    specialize (H (length (scenes state)) (length (scenes state), r)).
    rewrite list_lookup_imap, Hr in H. specialize (H eq_refl). cbn in H.
    apply render_screen_is_Some in H. lia.
  - intros Hlen i [i' r]. rewrite list_lookup_imap.
    destruct (items (routes props) !! i) as [r'|] eqn:Hr; [|done].
    cbn. intros [= <- <-]. apply render_screen_is_Some.
    apply lookup_lt_Some in Hr. lia.
Qed.

Lemma render_screens props state screens :
  render props state = Some screens →
  length screens = length (items (routes props))
  ∧ ∀ i sp, screens !! i = Some sp →
      ∃ r scene,
        items (routes props) !! i = Some r
        ∧ scenes state !! i = Some scene
        ∧ screen_key sp = key r
        ∧ (screen_isTop sp = true ↔ S i = length (items (routes props)))
        ∧ screen_transitioning sp = transitioning scene
        ∧ screen_active sp
          = isScreenActive (scenes state) i (render_activeLimit props).
Proof.
  unfold render. intros Hrender. apply mapM_Some in Hrender.
  pose proof (Forall2_length _ _ _ Hrender) as Hlen.
  rewrite length_imap in Hlen. split; [done|].
  intros i sp Hsp.
  destruct (Forall2_lookup_r _ _ _ _ _ Hrender Hsp) as ([i' r] & Hir & Hcall).
  rewrite list_lookup_imap in Hir.
  destruct (items (routes props) !! i) as [r'|] eqn:Hr; [|done].
  cbn in Hir. injection Hir as <- <-. cbn in Hcall.
  unfold render_screen in Hcall.
  destruct (scenes state !! i) as [scene|] eqn:Hscene; [|done].
  cbn in Hcall. injection Hcall as <-. cbn.
  exists r', scene. split; [done|]. split; [done|]. split; [done|].
  split; [|done]. rewrite bool_decide_eq_true.
  apply lookup_lt_Some in Hr. lia.
Qed.

(** X11: building the screens in [render] (the callback of [routes.map])
    fails exactly when some route has no scene at its index.  When it
    succeeds, there is one screen per route, in order:
    the screen at an index has the key of the route at that index, is
    built from the scene at that index, and is the top screen exactly when
    the index is the last. *)
Theorem render_one_screen_per_route props state :
  (is_Some (render props state)
   ↔ length (items (routes props)) ≤ length (scenes state))
  ∧ (∀ screens, render props state = Some screens →
       length screens = length (items (routes props))
       ∧ ∀ i sp, screens !! i = Some sp →
           ∃ r scene,
             items (routes props) !! i = Some r
             ∧ scenes state !! i = Some scene
             ∧ screen_key sp = key r
             ∧ (screen_isTop sp = true ↔ S i = length (items (routes props)))
             ∧ screen_transitioning sp = transitioning scene
             ∧ screen_active sp
               = isScreenActive (scenes state) i (render_activeLimit props)).
Proof.
  split; [apply render_is_Some|]. intros screens. apply render_screens.
Qed.

(** X12: in every reachable component building the screens in [render]
    does not fail: every route finds its scene, and there is one screen per
    route. *)
Theorem reachable_render_succeeds c :
  reachable c →
  ∃ screens,
    render (comp_props c) (comp_state c) = Some screens
    ∧ length screens = length (items (routes (comp_props c))).
Proof.
  intros Hreach.
  destruct (reachable_invariant c Hreach) as (Hitems & _ & Hinv).
  destruct (proj2 (render_is_Some (comp_props c) (comp_state c)))
    as [screens Hrender].
  { rewrite Hitems, (inv_scenes_length _ _ Hinv). done. }
  exists screens. split; [done|]. by destruct (render_screens _ _ _ Hrender).
Qed.

(** ** How the handlers and derivations compose *)

(** X13: a layout event alone never rebuilds the scenes: in a component
    whose state was derived from its props, the derivation that follows the
    layout update returns null, so routes, descriptors, scenes (with the
    progress values built for the old layout), trackers and their values
    stay as they are.  With unchanged dimensions the state stays as it is;
    otherwise the state gets a new layout object with the measured
    dimensions and the header heights are recomputed against it. *)
Theorem layout_change_keeps_scenes c e c' :
  props_unchanged (comp_props c) (comp_state c) = true →
  step c (LayoutEvent e) = Some c' →
  comp_props c' = comp_props c
  ∧ state_routes (comp_state c') = state_routes (comp_state c)
  ∧ state_descriptors (comp_state c') = state_descriptors (comp_state c)
  ∧ scenes (comp_state c') = scenes (comp_state c)
  ∧ gestures (comp_state c') = gestures (comp_state c)
  ∧ values (comp_heap c') = values (comp_heap c)
  ∧ ((height e == height (layout (comp_state c)))%Q
     ∧ (width e == width (layout (comp_state c)))%Q →
     comp_state c' = comp_state c)
  ∧ (¬ ((height e == height (layout (comp_state c)))%Q
        ∧ (width e == width (layout (comp_state c)))%Q) →
     layout_id (layout (comp_state c')) = next_id (comp_heap c)
     ∧ layout_value (layout (comp_state c'))
       = {| width := width e; height := height e |}
     ∧ headerHeights (comp_state c')
       = getHeaderHeights (items (routes (comp_props c))) (insets (comp_props c))
           (state_descriptors (comp_state c)) (layout (comp_state c'))
           (headerHeights (comp_state c))).
Proof.
  intros Hsame Hstep. unfold step in Hstep.
  destruct (handleLayout e _ _ _) as [[s|] h] eqn:Hlayout.
  - destruct (handleLayout_fields _ _ _ _ _ _ Hlayout)
      as (Hr & Hd & Hsc & Hg & -> & Hid & Hval & Hhh & Hne).
    assert (Hsame1 : props_unchanged (comp_props c) s = true)
      by by eapply props_unchanged_same_ids.
    rewrite (derive_unchanged _ _ _ Hsame1) in Hstep. cbn in Hstep.
    injection Hstep as <-. cbn.
    do 6 (split; [done|]). split; [by intros ?|]. intros _.
    split; [done|]. split; [done|]. exact Hhh.
  - injection Hstep as <-. cbn.
    rewrite (handleLayout_null _ _ _ _ _ Hlayout). cbn.
    do 6 (split; [done|]). split; [done|]. intros Hne. exfalso. apply Hne.
    unfold handleLayout in Hlayout. cbn in Hlayout.
    destruct (Qeq_bool (height e) _) eqn:Hh;
      destruct (Qeq_bool (width e) _) eqn:Hw; try done.
    split; by apply Qeq_bool_iff.
Qed.

(** X14: a layout change invalidates every memoised scene: after a layout
    event with changed dimensions, the next derivation that does not return
    null builds every scene anew, none is an object the state held. *)
Theorem layout_change_rebuilds_scenes c e c1 props c2 :
  reachable c →
  step c (LayoutEvent e) = Some c1 →
  ¬ ((height e == height (layout (comp_state c)))%Q
     ∧ (width e == width (layout (comp_state c)))%Q) →
  step c1 (PropsChange props) = Some c2 →
  props_unchanged props (comp_state c1) = false →
  length (scenes (comp_state c2)) = length (items (routes props))
  ∧ ∀ i sc, scenes (comp_state c2) !! i = Some sc →
      next_id (comp_heap c1) ≤ scene_id sc
      ∧ memo_layout (__memo sc) = layout_id (layout (comp_state c1))
      ∧ ∀ old, old ∈ scenes (comp_state c1) → sc ≠ old.
Proof.
  intros Hreach Hstep1 Hne Hstep2 Hchanged.
  pose proof (reachable_invariant c Hreach) as Hc.
  assert (Hinv1 : invariant c1)
    by exact (invariant_step c (LayoutEvent e) c1 Hc I Hstep1).
  destruct Hc as (Hitems & Hsame & Hinv).
  destruct Hinv1 as (_ & _ & Hinv1).
  assert (Hscenes1 : scenes (comp_state c1) = scenes (comp_state c)
                     ∧ layout_id (layout (comp_state c1)) = next_id (comp_heap c)).
  { unfold step in Hstep1.
    destruct (handleLayout e _ _ _) as [[s|] h] eqn:Hlayout.
    - destruct (handleLayout_fields _ _ _ _ _ _ Hlayout)
        as (Hr & Hd & Hsc & _ & _ & Hid & _).
      assert (Hsame1 : props_unchanged (comp_props c) s = true)
        by by eapply props_unchanged_same_ids.
      rewrite (derive_unchanged _ _ _ Hsame1) in Hstep1. cbn in Hstep1.
      by injection Hstep1 as <-.
    - exfalso. apply Hne.
      unfold handleLayout in Hlayout. cbn in Hlayout.
      destruct (Qeq_bool (height e) _) eqn:Hh;
        destruct (Qeq_bool (width e) _) eqn:Hw; try done.
      split; by apply Qeq_bool_iff. }
  destruct Hscenes1 as [Hsc1 Hlid].
  unfold step in Hstep2.
  destruct (derive props _) as [[s2 h2]|] eqn:Hderive; [|done].
  cbn in Hstep2. injection Hstep2 as <-. cbn.
  destruct (derive_inv _ _ _ _ _ _ _ _ Hderive)
    as [(_ & _ & Hnull)|(d & Hd & ->)]; [congruence|].
  destruct (getDerivedStateFromProps_update _ _ _ _ _ _ _ _ Hd)
    as (h1 & _ & Hfold & Hmap & _).
  destruct (gestures_fold _ _ _ _ _ _ _ _ _ Hfold) as (Hn & _).
  destruct (scenes_map _ _ _ _ _ _ _ _ _ _ _ Hmap) as (Hlen & _ & Hlook).
  cbn. split; [done|]. intros i sc Hsc.
  assert (Hi : i < length (items (routes props))).
  { rewrite <- Hlen. by eapply lookup_lt_Some. }
  destruct (lookup_lt_is_Some_2 _ _ Hi) as [r Hr].
  destruct (Hlook i r Hr) as (sc' & Hsc' & Hcall). cbn in Hcall.
  assert (sc' = sc) as -> by congruence.
  assert (Hold_layout : ∀ j old, scenes (comp_state c1) !! j = Some old →
            scene_id old < next_id (comp_heap c)
            ∧ memo_layout (__memo old) < next_id (comp_heap c)).
  { intros j old Hold. rewrite Hsc1 in Hold.
    destruct (inv_scenes _ _ Hinv j old Hold) as (_ & ? & ? & _). done. }
  pose proof (inv_layout_allocated _ _ Hinv1) as Hlay1.
  destruct (scenes_callback_built _ _ _ _ _ _ _ _ _ Hcall)
    as (g & Hg & [(old & Hold & Hm & _)|(_ & Hid & _ & _ & Hmemo & _)]).
  - exfalso. destruct (Hold_layout i old Hold) as [_ Hlt].
    rewrite Hm in Hlt. cbn in Hlt. lia.
  - split; [rewrite Hid; unfold alloc; cbn; lia|].
    split; [by rewrite Hmemo|].
    intros old [j Hj]%list_elem_of_lookup ->.
    destruct (Hold_layout j _ Hj) as [Hlt _].
    rewrite Hid in Hlt. unfold alloc in Hlt. cbn in Hlt. lia.
Qed.

(** X15: a tracker does not survive the absence of its route: when a route
    key leaves the routes its tracker is dropped, and when the key comes
    back it gets a new tracker, a different object, with the initial value
    of a new route. *)
Theorem returning_route_gets_new_tracker c props1 c1 props2 c2 k g :
  gestures (comp_state c) !! k = Some g →
  g < next_id (comp_heap c) →
  step c (PropsChange props1) = Some c1 →
  props_unchanged props1 (comp_state c) = false →
  ¬ route_present k props1 →
  step c1 (PropsChange props2) = Some c2 →
  props_unchanged props2 (comp_state c1) = false →
  route_present k props2 →
  gestures (comp_state c1) !! k = None
  ∧ ∃ g', gestures (comp_state c2) !! k = Some g'
          ∧ g' ≠ g
          ∧ values (comp_heap c2) !! g'
            = Some (initialGestureValue props2 (comp_state c1) k).
Proof.
  intros Hg Hlt Hstep1 Hch1 Habsent Hstep2 Hch2 Hpresent.
  unfold step in Hstep1, Hstep2.
  destruct (derive props1 _) as [[s1 h1]|] eqn:Hderive1; [|done].
  cbn in Hstep1. injection Hstep1 as <-. cbn in *.
  destruct (derive props2 _) as [[s2 h2]|] eqn:Hderive2; [|done].
  cbn in Hstep2. injection Hstep2 as <-. cbn.
  destruct (derive_inv _ _ _ _ _ _ _ _ Hderive1)
    as [(_ & _ & Hnull)|(d1 & Hd1 & ->)]; [congruence|].
  destruct (derive_inv _ _ _ _ _ _ _ _ Hderive2)
    as [(_ & _ & Hnull)|(d2 & Hd2 & ->)]; [congruence|].
  destruct (derived_gestures_origin _ _ _ _ _ Hd1) as (Hkeys1 & _ & _ & Hn1).
  assert (Hnone : derived_gestures d1 !! k = None).
  { destruct (derived_gestures d1 !! k) eqn:H; [|done].
    exfalso. apply Habsent, Hkeys1. eauto. }
  split; [done|].
  destruct (derived_gestures_spec _ _ _ _ _ _ _ _ Hd2) as (hb & Hfold & Hvals & _).
  destruct (gestures_fold _ _ _ _ _ _ _ _ _ Hfold) as (_ & _ & _ & _ & Hnew).
  destruct (Hnew k Hpresent Hnone) as (g' & Hg' & Hrange & Hval).
  exists g'. split; [done|]. split; [lia|]. by rewrite Hvals.
Qed.


End CardStackMore.

(* ================================================================= *)
(** * The theorems at work on the concrete navigator *)

Import Example.
Local Open Scope string_scope.

(** C1, as stated, fails: with the tracker at 0 the progress of a card in a
    320 by 640 window is 1, not 0. *)
Lemma progress_at_rest_is_not_zero :
  ∃ q, getValue {[7 := 0%Q]}
         (Example.getProgressFromGesture card (AnimatedValue 7) window None)
       = Some q
     ∧ (q == 1)%Q ∧ ¬ (q == 0)%Q.
Proof.
  eexists. split; [vm_compute; reflexivity|].
  split; [reflexivity|]. intros H. vm_compute in H. discriminate H.
Qed.

Lemma progress_from_gesture_endpoints_witness :
  ∃ q, getValue {[7 := 0%Q]}
         (Example.getProgressFromGesture card (AnimatedValue 7) window None)
       = Some q
     ∧ (q == 1)%Q.
Proof.
  apply (proj1 (progress_from_gesture_endpoints
                  SlideFromRightIOS ModalSlideFromBottomIOS
                  card window None 7 {[7 := 0%Q]} 0%Q
                  (lookup_singleton_eq 7 0%Q))).
  reflexivity.
Defined.

(** C9, as stated, fails at the initialization of a tracker: in a window of
    size 0 the tracker of an opening route starts at 0, the distance of the
    layout as it is, while the distance of the coerced layout is 1. *)
Lemma tracker_initialization_uses_raw_layout :
  (Example.mount propsOpening zeroWindow heap0 ≫= λ c,
     gestures (comp_state c) !! "a" ≫= λ g, values (comp_heap c) !! g)
  = Some 0%Q
  ∧ (Example.getDistanceFromOptions card (nonZeroLayout zeroWindow)
       (Some (plain 71)) == 1)%Q
  ∧ ¬ (0 == Example.getDistanceFromOptions card (nonZeroLayout zeroWindow)
              (Some (plain 71)))%Q.
Proof.
  split; [vm_compute; reflexivity|]. split; [reflexivity|].
  intros H. vm_compute in H. discriminate H.
Qed.

Lemma routeB_in_routes : routeB ∈ [routeA; routeB].
Proof. apply elem_of_cons. right. apply elem_of_cons. by left. Defined.

Lemma new_gesture_initial_value_witness :
  ∃ d h' g,
    Example.getDerivedStateFromProps props2 state0 heap1 = Some (Some d, h')
    ∧ derived_gestures d !! "b" = Some g
    ∧ values h' !! g = Some 320%Q.
Proof.
  eassert (H : Example.getDerivedStateFromProps props2 state0 heap1
               = Some (Some _, _)) by (vm_compute; reflexivity).
  destruct (new_gesture_initial_value
              SlideFromRightIOS ModalSlideFromBottomIOS defaultHeaderHeight
              _ _ _ _ _ routeB H routeB_in_routes eq_refl)
    as (g & v & Hg & _ & Hv & Hinit & _).
  eexists _, _, g. split; [exact H|]. split; [exact Hg|].
  rewrite Hv, Hinit. reflexivity.
Defined.





Lemma activity_window_witness :
  (∃ c, Example.mount (props4 card) window heap0 = Some c
      ∧ ∀ index,
          ∃ a, activeValue (values (comp_heap c))
                 (isScreenActive (scenes (comp_state c)) index
                    (render_activeLimit (props4 card)))
               = Some a
             ∧ (a == (if bool_decide (index + 1 < 4)%nat then 0 else 1))%Q)
  ∧ (∃ c, Example.mount (props4 modal) window heap0 = Some c
        ∧ ∀ index,
            ∃ a, activeValue (values (comp_heap c))
                   (isScreenActive (scenes (comp_state c)) index
                      (render_activeLimit (props4 modal)))
                 = Some a
               ∧ (a == (if bool_decide (index + 2 < 4)%nat then 0 else 1))%Q).
Proof.
  split.
  - eassert (Hm : Example.mount (props4 card) window heap0 = Some _)
      by (vm_compute; reflexivity).
    match type of Hm with
    | _ = Some ?c =>
        exists c; split; [exact Hm|]; intros index;
        destruct (activity_window (props4 card) (scenes (comp_state c))
                    (values (comp_heap c)) index) as (_ & _ & _ & Hidle)
    end.
    apply Hidle. intros sc Hsc. cbn in Hsc.
    repeat (apply elem_of_cons in Hsc as [->|Hsc]);
      [..|by apply elem_of_nil in Hsc];
      (eexists; split; [vm_compute; reflexivity|reflexivity]).
  - eassert (Hm : Example.mount (props4 modal) window heap0 = Some _)
      by (vm_compute; reflexivity).
    match type of Hm with
    | _ = Some ?c =>
        exists c; split; [exact Hm|]; intros index;
        destruct (activity_window (props4 modal) (scenes (comp_state c))
                    (values (comp_heap c)) index) as (_ & _ & _ & Hidle)
    end.
    apply Hidle. intros sc Hsc. cbn in Hsc.
    repeat (apply elem_of_cons in Hsc as [->|Hsc]);
      [..|by apply elem_of_nil in Hsc];
      (eexists; split; [vm_compute; reflexivity|reflexivity]).
Defined.

(** A dependency that does change under unchanged props: the descriptor of
    a neighbour that only the previous state's map still held.  The first
    derivation with [propsStale] resolves the next descriptor of [a] from
    the state; the second finds none, so the scene of [a] is a new object
    (109 for 105) while the scene of [b] is kept. *)
Lemma stale_neighbour_descriptor_rebuilds_scene :
  scene_ids_after [PropsChange props2; PropsChange propsStale]
  = Some [105; 106]%nat
  ∧ scene_ids_after [PropsChange props2; PropsChange propsStale;
                     PropsChange propsStale']
    = Some [109; 106]%nat.
Proof. split; vm_compute; reflexivity. Qed.

(** ** The further properties at work on the concrete navigator *)

Lemma routeA_first (l : list Route) : routeA ∈ routeA :: l.
Proof. apply elem_of_cons. by left. Defined.


(** A scene of route [a] whose progress reads tracker 7. *)
Definition sceneA : Scene :=
  {| scene_id := 200;
     route := routeA;
     descriptor := plain 41;
     progress :=
       {| current :=
            Example.getProgressFromGesture card (AnimatedValue 7) window None;
          next := None;
          previous := None |};
     __memo :=
       {| memo_route := 1; memo_layout := 101; memo_descriptor := 41;
          memo_nextDescriptor := None; memo_previousDescriptor := None;
          memo_currentGesture := 7; memo_nextGesture := None;
          memo_previousGesture := None |} |}.

Lemma transitioning_flag_witness :
  ∃ t, getValue {[7 := 160%Q]} (transitioning sceneA) = Some t ∧ (t == 1)%Q.
Proof.
  eassert (Hp : getValue {[7 := 160%Q]} (current (progress sceneA)) = Some _)
    by (vm_compute; reflexivity).
  destruct (transitioning_flag {[7 := 160%Q]} sceneA _ Hp)
    as (t & Ht & _ & _ & _ & Hone).
  exists t. split; [exact Ht|]. apply Hone. split; lra.
Defined.

Lemma stored_header_heights_persist_witness :
  getHeaderHeights defaultHeaderHeight [routeA] insets0 (descriptors props1)
    zeroWindow
    (getHeaderHeights defaultHeaderHeight [routeA] insets0 (descriptors props1)
       window ∅) !! "a"
  = Some 64%Q.
Proof.
  refine (eq_trans
            (stored_header_heights_persist defaultHeaderHeight
               [routeA] [routeA] insets0 insets0 (descriptors props1)
               window zeroWindow ∅ routeA (routeA_first [])
               (list_elem_of_fmap_2 key _ _ (routeA_first [])))
            _).
  vm_compute. reflexivity.
Defined.

Lemma measured_header_height_persists_witness :
  ∃ state',
    handleHeaderLayout routeA 50 state0 = Some state'
    ∧ handleHeaderLayout routeA 50 state' = None.
Proof.
  eexists. split; [reflexivity|].
  apply (measured_header_height_persists defaultHeaderHeight routeA 50 state0).
  reflexivity.
Defined.

Lemma derivation_trackers_witness :
  ∃ d h',
    Example.getDerivedStateFromProps props2 state0 heap1 = Some (Some d, h')
    ∧ is_Some (derived_gestures d !! "b")
    ∧ ¬ is_Some (derived_gestures d !! "c").
Proof.
  destruct (getDerivedStateFromProps_total
              SlideFromRightIOS ModalSlideFromBottomIOS defaultHeaderHeight
              props2 state0 heap1) as (o & h1 & H1 & _ & Hupd).
  destruct Hupd as [d ->]; [vm_compute; reflexivity|].
  destruct (derivation_trackers _ _ _ _ _ _ _ _ H1) as (Hkeys & _).
  exists d, h1. split; [exact H1|]. rewrite !Hkeys. split.
  - apply elem_of_cons. right. apply elem_of_cons. by left.
  - intros [H|[H|H]%elem_of_cons]%elem_of_cons;
      [discriminate H|discriminate H|by apply elem_of_nil in H].
Defined.

Lemma changed_dependency_rebuilds_scene_witness :
  ∃ d h' sc,
    Example.getDerivedStateFromProps props2 state0 heap1 = Some (Some d, h')
    ∧ derived_scenes d !! 0%nat = Some sc
    ∧ route sc = routeA.
Proof.
  destruct (getDerivedStateFromProps_total
              SlideFromRightIOS ModalSlideFromBottomIOS defaultHeaderHeight
              props2 state0 heap1) as (o & h1 & H1 & _ & Hupd).
  destruct Hupd as [d ->]; [vm_compute; reflexivity|].
  destruct (derived_scenes_spec _ _ _ _ _ _ _ _ H1) as (_ & Hlook).
  destruct (Hlook 0%nat routeA eq_refl) as (_ & g & _ & _ & Hg & _).
  destruct (changed_dependency_rebuilds_scene _ _ _ _ _ _ _ _ 0%nat routeA g
              H1 eq_refl Hg) as (sc & Hsc & _ & _ & Hroute & _).
  { intros oldScene H. discriminate H. }
  exists d, h1, sc. split; [exact H1|]. split; [exact Hsc|exact Hroute].
Defined.

Lemma scene_descriptor_priority_witness :
  ∃ d h' sc,
    Example.getDerivedStateFromProps props2 state0 heap1 = Some (Some d, h')
    ∧ derived_scenes d !! 0%nat = Some sc
    ∧ desc_id (descriptor sc) = 41%nat.
Proof.
  destruct (getDerivedStateFromProps_total
              SlideFromRightIOS ModalSlideFromBottomIOS defaultHeaderHeight
              props2 state0 heap1) as (o & h1 & H1 & _ & Hupd).
  destruct Hupd as [d ->]; [vm_compute; reflexivity|].
  destruct (derived_scenes_spec _ _ _ _ _ _ _ _ H1) as (_ & Hlook).
  destruct (Hlook 0%nat routeA eq_refl) as (sc & _ & _ & Hsc & _).
  exists d, h1, sc. split; [exact H1|]. split; [exact Hsc|].
  refine (eq_trans
            (scene_descriptor_priority _ _ _ _ _ _ _ _ 0%nat routeA sc
               H1 eq_refl Hsc _) _).
  - intros oldScene H. discriminate H.
  - reflexivity.
Defined.

(** The component mounted with [props1] is reachable. *)
Lemma mounted_props1 :
  ∃ c, Example.mount props1 window heap0 = Some c
     ∧ reachable SlideFromRightIOS ModalSlideFromBottomIOS defaultHeaderHeight c
     ∧ comp_props c = props1.
Proof.
  assert (Hfresh : routes_id (routes props1) ≠ next_id heap0) by (cbn; lia).
  destruct (mount_total SlideFromRightIOS ModalSlideFromBottomIOS
              defaultHeaderHeight props1 window heap0) as [c Hc].
  exists c. split; [exact Hc|]. split.
  - by eapply reachable_mount.
  - by destruct (invariant_mount _ _ _ _ _ _ _ Hfresh Hc) as (_ & ? & _).
Qed.

Lemma reachable_trackers_and_heights_witness :
  ∃ c, Example.mount props1 window heap0 = Some c
     ∧ is_Some (gestures (comp_state c) !! "a")
     ∧ is_Some (headerHeights (comp_state c) !! "a").
Proof.
  destruct mounted_props1 as (c & Hc & Hreach & Hprops).
  destruct (reachable_trackers_and_heights _ _ _ c Hreach) as (Hkeys & _ & _ & Hh).
  exists c. split; [exact Hc|]. rewrite Hprops in Hkeys, Hh. split.
  - apply Hkeys. apply elem_of_cons. by left.
  - apply (Hh routeA). apply routeA_first.
Defined.

Lemma reachable_scenes_aligned_witness :
  ∃ c sc, Example.mount props1 window heap0 = Some c
     ∧ scenes (comp_state c) !! 0%nat = Some sc
     ∧ route_id (route sc) = 1%nat
     ∧ is_Some (getValue (values (comp_heap c)) (current (progress sc))).
Proof.
  destruct mounted_props1 as (c & Hc & Hreach & Hprops).
  destruct (reachable_scenes_aligned _ _ _ c 0%nat routeA Hreach)
    as (sc & g & Hsc & Hroute & _ & _ & Hval & _).
  { by rewrite Hprops. }
  exists c, sc. split; [exact Hc|]. split; [exact Hsc|].
  split; [exact Hroute|exact Hval].
Defined.

Lemma reachable_render_succeeds_witness :
  ∃ c screens, Example.mount props1 window heap0 = Some c
     ∧ render SlideFromRightIOS ModalSlideFromBottomIOS (comp_props c)
         (comp_state c) = Some screens
     ∧ length screens = 1%nat.
Proof.
  destruct mounted_props1 as (c & Hc & Hreach & Hprops).
  destruct (reachable_render_succeeds _ _ _ c Hreach) as (screens & Hr & Hlen).
  exists c, screens. split; [exact Hc|]. split; [exact Hr|].
  by rewrite Hlen, Hprops.
Defined.


Lemma layout_change_keeps_scenes_witness :
  ∃ c c', Example.mount props1 window heap0 = Some c
     ∧ step SlideFromRightIOS ModalSlideFromBottomIOS defaultHeaderHeight
         c (LayoutEvent zeroWindow) = Some c'
     ∧ scenes (comp_state c') = scenes (comp_state c)
     ∧ layout_value (layout (comp_state c')) = zeroWindow.
Proof.
  destruct mounted_props1 as (c & Hc & Hreach & Hprops).
  destruct (reachable_invariant _ _ _ c Hreach) as (_ & Hsame & _).
  destruct (step_total SlideFromRightIOS ModalSlideFromBottomIOS
              defaultHeaderHeight c (LayoutEvent zeroWindow)) as [c' Hstep].
  destruct (layout_change_keeps_scenes _ _ _ c zeroWindow c' Hsame Hstep)
    as (_ & _ & _ & Hscenes & _ & _ & _ & Hnew).
  exists c, c'. split; [exact Hc|]. split; [exact Hstep|].
  split; [exact Hscenes|].
  destruct Hnew as (_ & Hval & _); [|exact Hval].
  assert (Hfresh : routes_id (routes props1) ≠ next_id heap0) by (cbn; lia).
  destruct (invariant_mount _ _ _ _ _ _ _ Hfresh Hc) as (_ & _ & d & _ & ->).
  cbn. intros [H _]. discriminate H.
Defined.

Lemma layout_change_rebuilds_scenes_witness :
  ∃ c c1 c2,
    Example.mount props1 window heap0 = Some c
    ∧ step SlideFromRightIOS ModalSlideFromBottomIOS defaultHeaderHeight
        c (LayoutEvent zeroWindow) = Some c1
    ∧ step SlideFromRightIOS ModalSlideFromBottomIOS defaultHeaderHeight
        c1 (PropsChange props2) = Some c2
    ∧ length (scenes (comp_state c2)) = 2%nat.
Proof.
  eassert (Hm : Example.mount props1 window heap0 = Some _)
    by (vm_compute; reflexivity).
  match type of Hm with
  | _ = Some ?c =>
      eassert (H1 : step SlideFromRightIOS ModalSlideFromBottomIOS
                      defaultHeaderHeight c (LayoutEvent zeroWindow) = Some _)
        by (vm_compute; reflexivity)
  end.
  match type of H1 with
  | _ = Some ?c1 =>
      eassert (H2 : step SlideFromRightIOS ModalSlideFromBottomIOS
                      defaultHeaderHeight c1 (PropsChange props2) = Some _)
        by (vm_compute; reflexivity)
  end.
  eexists _, _, _. split; [exact Hm|]. split; [exact H1|]. split; [exact H2|].
  refine (proj1 (layout_change_rebuilds_scenes
                   SlideFromRightIOS ModalSlideFromBottomIOS defaultHeaderHeight
                   _ zeroWindow _ props2 _ _ H1 _ H2 _)).
  - eapply reachable_mount; [|exact Hm]. cbn. lia.
  - intros [H _]. vm_compute in H. discriminate H.
  - vm_compute. reflexivity.
Defined.

Lemma b_left_the_routes : ¬ route_present "b" props1.
Proof.
  unfold route_present. cbn.
  intros [H|H]%elem_of_cons; [discriminate H|by apply elem_of_nil in H].
Qed.

Lemma returning_route_gets_new_tracker_witness :
  ∃ c c1 c2 g',
    Example.mount props2 window heap0 = Some c
    ∧ gestures (comp_state c) !! "b" = Some 103%nat
    ∧ step SlideFromRightIOS ModalSlideFromBottomIOS defaultHeaderHeight
        c (PropsChange props1) = Some c1
    ∧ step SlideFromRightIOS ModalSlideFromBottomIOS defaultHeaderHeight
        c1 (PropsChange props2') = Some c2
    ∧ gestures (comp_state c1) !! "b" = None
    ∧ gestures (comp_state c2) !! "b" = Some g'
    ∧ g' ≠ 103%nat.
Proof.
  eassert (Hm : Example.mount props2 window heap0 = Some _)
    by (vm_compute; reflexivity).
  match type of Hm with
  | _ = Some ?c =>
      eassert (H1 : step SlideFromRightIOS ModalSlideFromBottomIOS
                      defaultHeaderHeight c (PropsChange props1) = Some _)
        by (vm_compute; reflexivity)
  end.
  match type of H1 with
  | _ = Some ?c1 =>
      eassert (H2 : step SlideFromRightIOS ModalSlideFromBottomIOS
                      defaultHeaderHeight c1 (PropsChange props2') = Some _)
        by (vm_compute; reflexivity)
  end.
  assert (Hb : route_present "b" props2')
    by (apply elem_of_cons; right; apply elem_of_cons; by left).
  match type of H1 with
  | step _ _ _ ?c _ = Some ?c1 =>
      match type of H2 with
      | _ = Some ?c2 =>
          assert (Hg : gestures (comp_state c) !! "b" = Some 103%nat)
            by (vm_compute; reflexivity);
          assert (Hlt : 103 < next_id (comp_heap c)) by (vm_compute; lia);
          assert (Hch1 : props_unchanged props1 (comp_state c) = false)
            by (vm_compute; reflexivity);
          assert (Hch2 : props_unchanged props2' (comp_state c1) = false)
            by (vm_compute; reflexivity);
          destruct (returning_route_gets_new_tracker
                      SlideFromRightIOS ModalSlideFromBottomIOS
                      defaultHeaderHeight
                      c props1 c1 props2' c2 "b" 103%nat
                      Hg Hlt H1 Hch1 b_left_the_routes H2 Hch2 Hb)
            as (Hnone & g' & Hg' & Hne & _)
      end
  end.
  eexists _, _, _, g'. split; [exact Hm|]. split; [exact Hg|].
  split; [exact H1|]. split; [exact H2|]. split; [exact Hnone|].
  split; [exact Hg'|exact Hne].
Defined.
